(** * RealtimeAPI (lib/api.js): a shallow embedding and its properties

    The development follows [lib/api.js]: the constructor with its
    credential resolution, [isConnected], [log], [connect] with the
    listeners it installs on the WebSocket, [disconnect], [receive] and
    [send].

    JavaScript exceptions are explicit ([completion]), the mutable object
    [this], the WebSocket objects and the observable effects (wire writes,
    dispatches, console output, promise settlements) live in a [World] that
    is threaded through a small state-and-exception monad [M].  Platform
    services the file calls but does not define (the WHATWG [URL] class,
    [JSON.parse], [JSON.stringify]) are an interface, [Host]; the two
    helpers of this repository that live in other files
    ([RealtimeUtils.generateId], [RealtimeEventHandler.dispatch]) are
    modelled from the specification. *)

From Stdlib Require Import Ascii.
From stdpp Require Import gmap strings list pretty.

Set Warnings "-register-all".
Local Open Scope string_scope.

(** ** JavaScript values *)

(** The values that flow through the API: payloads, events and decoded
    messages.  Objects are association lists in insertion order with
    pairwise distinct keys; numbers are integers (no claim below depends
    on a numeric value). *)
Inductive value : Type :=
| VUndefined
| VNull
| VBool (b : bool)
| VNumber (n : Z)
| VString (s : string)
| VArray (items : list value)
| VObject (props : list (string * value)).

(** Thrown values.  [Error] is what [throw new Error(msg)] raises; the
    other three are raised by the language or the platform. *)
Inductive exn : Type :=
| Error (message : string)
| TypeError (message : string)
| ReferenceError (message : string)
| SyntaxError (message : string).

Global Instance exn_eq_dec : EqDecision exn.
Proof. solve_decision. Defined.

(** The outcome of evaluating a piece of code. *)
Inductive completion (A : Type) : Type :=
| Normal (a : A)
| Throw (e : exn).
Arguments Normal {A} a.
Arguments Throw {A} e.

Definition completion_bind {A B} (c : completion A) (k : A -> completion B)
  : completion B :=
  match c with
  | Normal a => k a
  | Throw e => Throw e
  end.

(** [ToBoolean]. *)
Definition truthy (v : value) : bool :=
  match v with
  | VUndefined | VNull => false
  | VBool b => b
  | VNumber n => negb (n =? 0)%Z
  | VString s => negb (String.eqb s "")
  | VArray _ | VObject _ => true
  end.

(** The [typeof] operator. *)
Definition typeof (v : value) : string :=
  match v with
  | VUndefined => "undefined"
  | VNull => "object"
  | VBool _ => "boolean"
  | VNumber _ => "number"
  | VString _ => "string"
  | VArray _ | VObject _ => "object"
  end.

Definition is_null (v : value) : bool :=
  match v with VNull => true | _ => false end.

(** The double-quote character, for messages that contain one. *)
Definition dq : string := String (Ascii.ascii_of_nat 34) "".

(** An optional string argument or field ([string | null | undefined]):
    [None] is null/undefined, and the empty string is falsy as well. *)
Definition truthy_str (o : option string) : bool :=
  match o with
  | Some s => negb (String.eqb s "")
  | None => false
  end.

(** [a || b] on optional strings. *)
Definition or_str (a b : option string) : option string :=
  if truthy_str a then a else b.

(** ** Object properties *)

Fixpoint lookup_prop (k : string) (props : list (string * value)) : option value :=
  match props with
  | [] => None
  | (k', v) :: rest => if String.eqb k k' then Some v else lookup_prop k rest
  end.

(** Defining a property: an existing key keeps its place and takes the new
    value, a new key goes last.  (Engines list integer-like keys first;
    that reordering changes no lookup and is left out.) *)
Fixpoint set_prop (k : string) (v : value) (props : list (string * value))
  : list (string * value) :=
  match props with
  | [] => [(k, v)]
  | (k', v') :: rest =>
      if String.eqb k k' then (k, v) :: rest else (k', v') :: set_prop k v rest
  end.

(** The own enumerable properties an object spread [...v] copies: those of
    an object, the index properties of an array, nothing for the rest. *)
Definition index_props (items : list value) : list (string * value) :=
  imap (fun i v => (pretty i, v)) items.

Definition own_props (v : value) : list (string * value) :=
  match v with
  | VObject props => props
  | VArray items => index_props items
  | _ => []
  end.

(** [{ ...target, ...source }]: the properties of [source] are defined on
    top of [target], in order. *)
Definition spread (target source : list (string * value)) : list (string * value) :=
  foldl (fun acc kv => set_prop kv.1 kv.2 acc) target source.

(** Property read [v.k] for a key that no prototype defines (such as
    [type]): reading from [null] or [undefined] throws. *)
Definition get_member (v : value) (k : string) : completion value :=
  match v with
  | VUndefined | VNull =>
      Throw (TypeError ("Cannot read properties of null or undefined (reading '" +:+ k +:+ "')"))
  | VObject props => Normal (default VUndefined (lookup_prop k props))
  | _ => Normal VUndefined
  end.

(** [ToString], as a template literal applies it. *)
Fixpoint to_string (v : value) : string :=
  match v with
  | VUndefined => "undefined"
  | VNull => "null"
  | VBool true => "true"
  | VBool false => "false"
  | VNumber n => pretty n
  | VString s => s
  | VArray items =>
      String.concat ","
        (map (fun x => match x with
                       | VUndefined | VNull => ""
                       | _ => to_string x
                       end) items)
  | VObject _ => "[object Object]"
  end.

(** ** The URL class *)

(** A parsed URL as the code uses it: the host name, the query as the
    list of name-value pairs behind [searchParams], and the rest. *)
Record URL : Type := mkURL {
  origin_path : string;
  hostname : string;
  searchParams : list (string * string);
  hash : string
}.

Module URLSearchParams.

Fixpoint get (name : string) (l : list (string * string)) : option string :=
  match l with
  | [] => None
  | (n, v) :: rest => if String.eqb n name then Some v else get name rest
  end.

Definition has (name : string) (l : list (string * string)) : bool :=
  bool_decide (is_Some (get name l)).

Definition append (name v : string) (l : list (string * string))
  : list (string * string) :=
  l ++ [(name, v)].

(** [set]: the first pair named [name] takes the value, the other pairs
    of that name are removed; without such a pair, one is appended. *)
Fixpoint set (name v : string) (l : list (string * string))
  : list (string * string) :=
  match l with
  | [] => [(name, v)]
  | (n, v') :: rest =>
      if String.eqb n name
      then (name, v) :: filter (fun p => p.1 ≠ name) rest
      else (n, v') :: set name v rest
  end.

End URLSearchParams.

Definition with_searchParams (u : URL) (l : list (string * string)) : URL :=
  {| origin_path := origin_path u; hostname := hostname u;
     searchParams := l; hash := hash u |}.

(** [String.prototype.includes]. *)
Definition includes (s sub : string) : bool :=
  bool_decide (is_Some (String.index 0 sub s)).

(** ** Platform services *)

(** What the file takes from its runtime: the [URL] constructor ([None]
    when it throws on an invalid URL) with its serializer, and the JSON
    codec ([None] when [JSON.parse] throws). *)
Class Host : Type := {
  URL_new : string -> option URL;
  URL_toString : URL -> string;
  JSON_parse : string -> option value;
  JSON_stringify : value -> string
}.

(** Modelled from the spec: [RealtimeUtils.generateId] (utils.js is not
    among the sources).  The specification asks for unique, non-empty
    event ids; the second argument is the state of the random source,
    which every call advances. *)
Class IdGen : Type := {
  generateId : string -> nat -> string;
  generateId_nonempty : forall prefix seed, generateId prefix seed ≠ "";
  generateId_unique : forall prefix, Inj (=) (=) (generateId prefix)
}.

(** The ambient global object: whether [globalThis.document] is truthy. *)
Record globalThis : Type := { document : bool }.

(** ** The RealtimeAPI object *)

(** Identity of a WebSocket object. *)
Definition handle := nat.

Record RealtimeAPI : Type := mkAPI {
  defaultUrl : string;
  apiKey : option string;
  debug : bool;
  ws : option handle;
  url : option string
}.

Definition set_apiKey (k : option string) (this : RealtimeAPI) : RealtimeAPI :=
  {| defaultUrl := defaultUrl this; apiKey := k; debug := debug this;
     ws := ws this; url := url this |}.

Definition set_url (u : option string) (this : RealtimeAPI) : RealtimeAPI :=
  {| defaultUrl := defaultUrl this; apiKey := apiKey this; debug := debug this;
     ws := ws this; url := u |}.

Definition set_ws (w : option handle) (this : RealtimeAPI) : RealtimeAPI :=
  {| defaultUrl := defaultUrl this; apiKey := apiKey this; debug := debug this;
     ws := w; url := url this |}.

Definition msg_key_required : string :=
  "API key must be provided either in the URL or as a separate parameter".
Definition msg_key_mismatch : string :=
  "API key in URL does not match the provided API key".
Definition msg_browser_key : string :=
  "Can not provide API key in the browser without " +:+ dq
  +:+ "dangerouslyAllowAPIKeyInBrowser" +:+ dq +:+ " set to true".
Definition msg_defaultUrl_undefined : string := "defaultUrl is not defined".

Section Constructor.
Context `{Host}.

(** Lines 28-52: the credential is resolved against the URL.  In the
    branch without a URL the right-hand side is the bare identifier
    [defaultUrl]; no binding of that name is in scope (the field is
    [this.defaultUrl]), so evaluating it throws a ReferenceError. *)
Definition resolve_url (url_arg apiKey_arg : option string) (this : RealtimeAPI)
  : completion RealtimeAPI :=
  if truthy_str url_arg then
    match URL_new (default "" url_arg) with
    | None => Throw (TypeError "Invalid URL")
    | Some urlObj =>
        let urlApiKey := URLSearchParams.get "api-key" (searchParams urlObj) in
        completion_bind
          (if negb (truthy_str urlApiKey) && negb (truthy_str apiKey_arg) then
             Throw (Error msg_key_required)
           else if truthy_str urlApiKey && truthy_str apiKey_arg
                   && negb (bool_decide (urlApiKey = apiKey_arg)) then
             Throw (Error msg_key_mismatch)
           else
             Normal (set_apiKey (or_str urlApiKey apiKey_arg) this))
          (fun this =>
             let urlObj :=
               if negb (truthy_str urlApiKey) then
                 with_searchParams urlObj
                   (URLSearchParams.set "api-key" (default "" (apiKey this))
                      (searchParams urlObj))
               else urlObj in
             Normal (set_url (Some (URL_toString urlObj)) this))
    end
  else
    Throw (ReferenceError msg_defaultUrl_undefined).

(** Lines 54-60: the browser gate. *)
Definition browser_gate (g : globalThis) (dangerouslyAllowAPIKeyInBrowser : bool)
    (this : RealtimeAPI) : completion RealtimeAPI :=
  if document g && truthy_str (apiKey this) then
    if negb dangerouslyAllowAPIKeyInBrowser then Throw (Error msg_browser_key)
    else Normal this
  else Normal this.

(** What [this] looks like when construction succeeds. *)
Definition constructed (key : string) (stored : URL) (dbg : bool) : RealtimeAPI :=
  {| defaultUrl := "wss://api.openai.com/v1/realtime";
     apiKey := Some key;
     debug := dbg;
     ws := None;
     url := Some (URL_toString stored) |}.

(** [urlObj] after [searchParams.set('api-key', key)]. *)
Definition with_api_key (key : string) (urlObj : URL) : URL :=
  with_searchParams urlObj
    (URLSearchParams.set "api-key" key (searchParams urlObj)).

(** [new RealtimeAPI({ url, apiKey, dangerouslyAllowAPIKeyInBrowser, debug })]. *)
Definition constructor (g : globalThis) (url_arg apiKey_arg : option string)
    (dangerouslyAllowAPIKeyInBrowser debug_arg : bool) : completion RealtimeAPI :=
  let this :=
    {| defaultUrl := "wss://api.openai.com/v1/realtime";
       apiKey := or_str apiKey_arg None;
       debug := debug_arg;
       ws := None;
       url := None |} in
  completion_bind (resolve_url url_arg apiKey_arg this)
    (browser_gate g dangerouslyAllowAPIKeyInBrowser).

End Constructor.

(** ** The world: [this], the sockets, the effects *)

(** What the outside can observe, in the order it happens. *)
Inductive effect : Type :=
| NewWebSocket (h : handle) (address : string)
| WsSend (h : handle) (data : string)
| WsClose (h : handle)
| Dispatch (eventName : string) (event : value)
| ConsoleLog (args : list value)
| Resolve (h : handle)
| Reject (h : handle) (e : exn).

(** The promise [connect] returns for a socket. *)
Inductive promise_state : Type :=
| Pending
| Fulfilled
| Rejected (e : exn).

(** A WebSocket object with the listeners [connect] keeps on it:
    [connectionErrorHandler] is on 'error' until 'open' removes it, and
    each run of the 'open' listener adds one more pair of post-open
    'error' and 'close' listeners.  The 'message' and 'open' listeners
    stay for the life of the socket. *)
Record WebSocket : Type := mkWebSocket {
  address : string;
  connectionErrorHandler : bool;
  open_listeners : nat;
  promise : promise_state
}.

Record World : Type := mkWorld {
  this : RealtimeAPI;
  sockets : gmap handle WebSocket;
  random : nat;
  trace : list effect
}.

Definition M (A : Type) : Type := World -> completion A * World.

Definition ret {A} (a : A) : M A := fun w => (Normal a, w).

Definition throw {A} (e : exn) : M A := fun w => (Throw e, w).

Definition bind {A B} (m : M A) (k : A -> M B) : M B :=
  fun w =>
    match m w with
    | (Normal a, w') => k a w'
    | (Throw e, w') => (Throw e, w')
    end.

Declare Scope js_scope.
Delimit Scope js_scope with js.
Notation "x <- m ;; k" := (bind m (fun x => k))
  (at level 100, m at next level, right associativity) : js_scope.
Notation "m ;;; k" := (bind m (fun _ => k))
  (at level 100, right associativity) : js_scope.
Local Open Scope js_scope.

Definition gets {A} (f : World -> A) : M A := fun w => (Normal (f w), w).

Definition modify (f : World -> World) : M unit := fun w => (Normal tt, f w).

Definition tell (e : effect) : M unit :=
  modify (fun w => {| this := this w; sockets := sockets w; random := random w;
                      trace := trace w ++ [e] |}).

Definition set_this (f : RealtimeAPI -> RealtimeAPI) : M unit :=
  modify (fun w => {| this := f (this w); sockets := sockets w; random := random w;
                      trace := trace w |}).

Definition set_socket (h : handle) (s : WebSocket) : M unit :=
  modify (fun w => {| this := this w; sockets := <[h := s]> (sockets w);
                      random := random w; trace := trace w |}).

Definition next_random : M nat :=
  fun w => (Normal (random w),
            {| this := this w; sockets := sockets w; random := S (random w);
               trace := trace w |}).

(** Runs [m] n times, stopping at the first exception. *)
Fixpoint repeat_M (n : nat) (m : M unit) : M unit :=
  match n with
  | O => ret tt
  | S n' => m ;;; repeat_M n' m
  end.

(** The effects [m] adds when run from [w]. *)
Definition effects_of {A} (m : M A) (w : World) : list effect :=
  drop (length (trace w)) (trace (m w).2).

(** ** The methods *)

Definition msg_already_connected : string := "Already connected".
Definition msg_not_connected : string := "RealtimeAPI is not connected".
Definition msg_data_object : string := "data must be an object".
Definition msg_could_not_connect (u : option string) : string :=
  "Could not connect to " +:+ dq +:+ default "undefined" u +:+ dq.
Definition default_model : string := "gpt-4o-realtime-preview-2024-10-01".
Definition node_fallback_url : string :=
  "wss://api.openai.com/v1/realtime?model=gpt-4o-realtime-preview-2024-10-01".

Section Methods.
Context `{Host} `{IdGen}.

(** [isConnected()]: [!!this.ws]. *)
Definition isConnected : M bool :=
  gets (fun w => bool_decide (is_Some (ws (this w)))).

(** [log(...args)]: objects are rendered with [JSON.stringify], and the
    line goes to the console only in debug mode.  The time stamp that
    leads the line is left out. *)
Definition log (args : list value) : M bool :=
  let logs :=
    map (fun arg =>
           if bool_decide (typeof arg = "object") && negb (is_null arg)
           then VString (JSON_stringify arg) else arg) args in
  d <- gets (fun w => debug (this w)) ;;
  (if d : bool then tell (ConsoleLog logs) else ret tt) ;;;
  ret true.

(** Modelled from the spec: [RealtimeEventHandler.dispatch]
    (event_handler.js is not among the sources).  It publishes [event]
    under [eventName] synchronously; the listeners it reaches are
    observers of the API, so a dispatch is one effect at the point of
    the call. *)
Definition dispatch (eventName : string) (event : value) : M bool :=
  tell (Dispatch eventName event) ;;;
  ret true.

(** [disconnect(ws)]; the argument is [None] when the call passes no
    socket.  Outside the guard the function falls off its end and
    returns [undefined]. *)
Definition disconnect (ws_arg : option handle) : M value :=
  cur <- gets (fun w => ws (this w)) ;;
  if bool_decide (ws_arg = None) || bool_decide (cur = ws_arg) then
    match cur with
    | Some h => tell (WsClose h)
    | None => ret tt
    end ;;;
    set_this (set_ws None) ;;;
    ret (VBool true)
  else ret VUndefined.

(** [receive(eventName, event)]. *)
Definition receive (eventName : value) (event : value) : M bool :=
  log [VString "received:"; eventName; event] ;;;
  dispatch ("server." +:+ to_string eventName) event ;;;
  dispatch "server.*" event ;;;
  ret true.

(** [send(eventName, data)]. *)
Definition send (eventName : string) (data : value) : M bool :=
  connected <- isConnected ;;
  if negb connected then throw (Error msg_not_connected)
  else
    let data := if truthy data then data else VObject [] in
    if negb (bool_decide (typeof data = "object")) then
      throw (Error msg_data_object)
    else
      seed <- next_random ;;
      let event :=
        VObject (spread [("event_id", VString (generateId "evt_" seed));
                         ("type", VString eventName)]
                        (own_props data)) in
      dispatch ("client." +:+ eventName) event ;;;
      dispatch "client.*" event ;;;
      log [VString "sent:"; VString eventName; event] ;;;
      cur <- gets (fun w => ws (this w)) ;;
      match cur with
      | Some h => tell (WsSend h (JSON_stringify event))
      | None => throw (TypeError "Cannot read properties of null (reading 'send')")
      end ;;;
      ret true.

(** *** The listeners [connect] installs *)

Definition settle (h : handle) (outcome : promise_state) (e : effect) : M unit :=
  s <- gets (fun w => sockets w !! h) ;;
  match s with
  | Some sock =>
      match promise sock with
      | Pending =>
          set_socket h {| address := address sock;
                          connectionErrorHandler := connectionErrorHandler sock;
                          open_listeners := open_listeners sock;
                          promise := outcome |} ;;;
          tell e
      | _ => ret tt
      end
  | None => ret tt
  end.

(** 'message': decode and hand over to [receive]. *)
Definition on_message (data : string) : M unit :=
  match JSON_parse data with
  | None => throw (SyntaxError "JSON.parse")
  | Some message =>
      match get_member message "type" with
      | Throw e => throw e
      | Normal ty => receive ty message ;;; ret tt
      end
  end.

(** 'error' before 'open': [connectionErrorHandler]. *)
Definition on_connection_error (h : handle) : M unit :=
  disconnect (Some h) ;;;
  u <- gets (fun w => url (this w)) ;;
  let e := Error (msg_could_not_connect u) in
  settle h (Rejected e) (Reject h e).

(** 'open'. *)
Definition on_open (h : handle) : M unit :=
  u <- gets (fun w => url (this w)) ;;
  log [VString ("Connected to " +:+ dq +:+ default "undefined" u +:+ dq)] ;;;
  s <- gets (fun w => sockets w !! h) ;;
  match s with
  | Some sock =>
      set_socket h {| address := address sock;
                      connectionErrorHandler := false;
                      open_listeners := S (open_listeners sock);
                      promise := promise sock |}
  | None => ret tt
  end ;;;
  set_this (set_ws (Some h)) ;;;
  settle h Fulfilled (Resolve h).

(** 'error' after 'open'. *)
Definition on_error (h : handle) : M unit :=
  disconnect (Some h) ;;;
  u <- gets (fun w => url (this w)) ;;
  log [VString ("Error, disconnected from " +:+ dq +:+ default "undefined" u +:+ dq)] ;;;
  dispatch "close" (VObject [("error", VBool true)]) ;;;
  ret tt.

(** 'close' after 'open'. *)
Definition on_close (h : handle) : M unit :=
  disconnect (Some h) ;;;
  u <- gets (fun w => url (this w)) ;;
  log [VString ("Disconnected from " +:+ dq +:+ default "undefined" u +:+ dq)] ;;;
  dispatch "close" (VObject [("error", VBool false)]) ;;;
  ret tt.

(** What the transport can announce on a socket. *)
Inductive ws_event : Type :=
| EvOpen
| EvError
| EvClose
| EvMessage (data : string).

(** The transport emits [ev] on socket [h]: the listeners registered for
    it run in registration order; an exception leaves through the
    emitter. *)
Definition emit (h : handle) (ev : ws_event) : M unit :=
  s <- gets (fun w => sockets w !! h) ;;
  match s with
  | None => ret tt
  | Some sock =>
      match ev with
      | EvMessage data => on_message data
      | EvOpen => on_open h
      | EvError =>
          (if connectionErrorHandler sock then on_connection_error h else ret tt) ;;;
          repeat_M (open_listeners sock) (on_error h)
      | EvClose => repeat_M (open_listeners sock) (on_close h)
      end
  end.

(** [connect({ model })]; a call without settings passes
    [Some default_model].  The result is the socket whose 'open' or
    'error' settles the promise the call returns; a thrown completion is
    that promise rejected at once.  The [finishRequest] callback, which
    only sets request headers, and the loading of the [ws] module are left
    out. *)
Definition connect (g : globalThis) (model : option string) : M handle :=
  connected <- isConnected ;;
  if connected : bool then throw (Error msg_already_connected)
  else
    u <- gets (fun w => url (this w)) ;;
    target <-
      (if document g then
         match URL_new (default "undefined" u) with
         | None => throw (TypeError "Invalid URL")
         | Some urlObj =>
             let params := searchParams urlObj in
             let urlObj :=
               if negb (URLSearchParams.has "model" params)
                  && negb (URLSearchParams.has "deployment" params)
                  && negb (includes (hostname urlObj) "openai.azure.com")
               then
                 if truthy_str model
                 then with_searchParams urlObj
                        (URLSearchParams.append "model" (default "" model) params)
                 else urlObj
               else urlObj in
             ret (URL_toString urlObj)
         end
       else
         ret (default node_fallback_url (or_str u None))) ;;
    h <- gets (fun w => fresh (dom (sockets w))) ;;
    tell (NewWebSocket h target) ;;;
    set_socket h {| address := target; connectionErrorHandler := true;
                    open_listeners := 0; promise := Pending |} ;;;
    ret h.

End Methods.

(** ** A reference host

    A small, executable [Host] and [IdGen] on which the closed examples
    below run.  It reads URLs of the shape [scheme://host/path?query#hash]
    whose query needs no percent-encoding, and JSON text without escape
    sequences or fractional numbers. *)
Module RefHost.

Local Open Scope char_scope.

(** [s] up to the first [c], and what follows it (if [c] occurs). *)
Fixpoint split_once (c : ascii) (s : string) : string * option string :=
  match s with
  | EmptyString => (EmptyString, None)
  | String a rest =>
      if Ascii.eqb a c then (EmptyString, Some rest)
      else let '(before, after) := split_once c rest in (String a before, after)
  end.

Fixpoint split_all (c : ascii) (s : string) : list string :=
  match s with
  | EmptyString => [EmptyString]
  | String a rest =>
      if Ascii.eqb a c then EmptyString :: split_all c rest
      else match split_all c rest with
           | x :: xs => String a x :: xs
           | [] => [String a EmptyString]
           end
  end.

Definition parse_query (q : string) : list (string * string) :=
  omap (fun part =>
          if String.eqb part "" then None
          else let '(n, v) := split_once "=" part in Some (n, default ""%string v))
       (split_all "&" q).

Definition serialize_query (l : list (string * string)) : string :=
  String.concat "&" (map (fun p => p.1 +:+ "=" +:+ p.2) l).

Definition url_new (s : string) : option URL :=
  let '(s1, frag) := split_once "#" s in
  let '(s2, query) := split_once "?" s1 in
  match String.index 0 "://" s2 with
  | Some (S i) =>
      let authority_path := String.substring (S i + 3) (String.length s2) s2 in
      let authority := (split_once "/" authority_path).1 in
      let host := (split_once ":" authority).1 in
      if String.eqb host "" then None
      else Some {| origin_path := s2; hostname := host;
                   searchParams := parse_query (default ""%string query);
                   hash := default ""%string frag |}
  | _ => None
  end.

Definition url_toString (u : URL) : string :=
  origin_path u
  +:+ (match searchParams u with
       | [] => ""
       | l => "?" +:+ serialize_query l
       end)
  +:+ (if String.eqb (hash u) "" then "" else "#" +:+ hash u).

(** *** JSON text *)

Definition is_ws (a : ascii) : bool :=
  Ascii.eqb a " " || Ascii.eqb a "010" || Ascii.eqb a "013" || Ascii.eqb a "009".

Fixpoint skip_ws (s : list ascii) : list ascii :=
  match s with
  | a :: rest => if is_ws a then skip_ws rest else s
  | [] => []
  end.

Definition digit_of (a : ascii) : option Z :=
  let n := nat_of_ascii a in
  if (48 <=? n)%nat && (n <=? 57)%nat then Some (Z.of_nat (n - 48)) else None.

Fixpoint read_digits (acc : Z) (s : list ascii) : Z * list ascii :=
  match s with
  | a :: rest =>
      match digit_of a with
      | Some d => read_digits (10 * acc + d) rest
      | None => (acc, s)
      end
  | [] => (acc, [])
  end.

Definition read_number (s : list ascii) : option (Z * list ascii) :=
  match s with
  | a :: rest =>
      match digit_of a with
      | Some _ => Some (read_digits 0 s)
      | None => None
      end
  | [] => None
  end.

(** The characters of a string literal after its opening quote. *)
Fixpoint read_string (s : list ascii) : option (string * list ascii) :=
  match s with
  | [] => None
  | a :: rest =>
      if Ascii.eqb a (ascii_of_nat 34) then Some (EmptyString, rest)
      else if Ascii.eqb a "\" then None
      else match read_string rest with
           | Some (str, rest') => Some (String a str, rest')
           | None => None
           end
  end.

Section Compound.
Variable parse_value : list ascii -> option (value * list ascii).

(** The elements of an array after the first, up to the bracket. *)
Fixpoint read_items (fuel : nat) (acc : list value) (s : list ascii)
  : option (value * list ascii) :=
  match fuel with
  | O => None
  | S fuel' =>
      match skip_ws s with
      | "]" :: rest => Some (VArray (reverse acc), rest)
      | "," :: rest =>
          match parse_value rest with
          | Some (v, rest') => read_items fuel' (v :: acc) rest'
          | None => None
          end
      | _ => None
      end
  end.

Definition read_member (s : list ascii) : option (string * value * list ascii) :=
  match skip_ws s with
  | a :: rest =>
      if Ascii.eqb a (ascii_of_nat 34) then
        match read_string rest with
        | Some (k, rest1) =>
            match skip_ws rest1 with
            | ":" :: rest2 =>
                match parse_value rest2 with
                | Some (v, rest3) => Some (k, v, rest3)
                | None => None
                end
            | _ => None
            end
        | None => None
        end
      else None
  | [] => None
  end.

(** The members of an object after the first, up to the brace. *)
Fixpoint read_members (fuel : nat) (acc : list (string * value)) (s : list ascii)
  : option (value * list ascii) :=
  match fuel with
  | O => None
  | S fuel' =>
      match skip_ws s with
      | "}" :: rest => Some (VObject acc, rest)
      | "," :: rest =>
          match read_member rest with
          | Some (k, v, rest') => read_members fuel' (set_prop k v acc) rest'
          | None => None
          end
      | _ => None
      end
  end.
End Compound.

Fixpoint parse_value (fuel : nat) (s : list ascii) : option (value * list ascii) :=
  match fuel with
  | O => None
  | S fuel' =>
      match skip_ws s with
      | "n" :: "u" :: "l" :: "l" :: rest => Some (VNull, rest)
      | "t" :: "r" :: "u" :: "e" :: rest => Some (VBool true, rest)
      | "f" :: "a" :: "l" :: "s" :: "e" :: rest => Some (VBool false, rest)
      | "-" :: rest =>
          match read_number rest with
          | Some (n, rest') => Some (VNumber (- n), rest')
          | None => None
          end
      | "[" :: rest =>
          match skip_ws rest with
          | "]" :: rest' => Some (VArray [], rest')
          | _ =>
              match parse_value fuel' rest with
              | Some (v, rest') => read_items (parse_value fuel') fuel' [v] rest'
              | None => None
              end
          end
      | "{" :: rest =>
          match skip_ws rest with
          | "}" :: rest' => Some (VObject [], rest')
          | _ =>
              match read_member (parse_value fuel') rest with
              | Some (k, v, rest') =>
                  read_members (parse_value fuel') fuel' [(k, v)] rest'
              | None => None
              end
          end
      | a :: rest =>
          if Ascii.eqb a (ascii_of_nat 34) then
            match read_string rest with
            | Some (str, rest') => Some (VString str, rest')
            | None => None
            end
          else
            match read_number (a :: rest) with
            | Some (n, rest') => Some (VNumber n, rest')
            | None => None
            end
      | [] => None
      end
  end.

Definition json_parse (text : string) : option value :=
  let chars := String.list_ascii_of_string text in
  match parse_value (S (length chars)) chars with
  | Some (v, rest) =>
      match skip_ws rest with
      | [] => Some v
      | _ => None
      end
  | None => None
  end.

Definition quoted (s : string) : string := dq +:+ s +:+ dq.

Fixpoint json_stringify (v : value) : string :=
  match v with
  | VUndefined => "undefined"
  | VNull => "null"
  | VBool true => "true"
  | VBool false => "false"
  | VNumber n => pretty n
  | VString s => quoted s
  | VArray items =>
      "[" +:+ String.concat ","
                (map (fun x => match x with
                               | VUndefined => "null"%string
                               | _ => json_stringify x
                               end) items) +:+ "]"
  | VObject props =>
      "{" +:+ String.concat ","
                ((fix members (l : list (string * value)) : list string :=
                    match l with
                    | [] => []
                    | (_, VUndefined) :: rest => members rest
                    | (k, x) :: rest =>
                        (quoted k +:+ ":" +:+ json_stringify x) :: members rest
                    end) props) +:+ "}"
  end.

#[export] Instance host : Host := {|
  URL_new := url_new;
  URL_toString := url_toString;
  JSON_parse := json_parse;
  JSON_stringify := json_stringify
|}.

(** Ids are the prefix, a letter and the decimal seed. *)
Definition generate_id (prefix : string) (seed : nat) : string :=
  prefix +:+ "n" +:+ pretty seed.

#[export] Instance idgen : IdGen.
Proof.
  assert (Hinj : forall prefix, Inj (=) (=) (generate_id prefix)).
  { intros prefix a b Heq. unfold generate_id in Heq.
    apply String.app_inj in Heq. apply String.app_inj in Heq.
    by apply pretty_nat_inj in Heq. }
  refine (Build_IdGen generate_id _ Hinj).
  intros prefix seed. unfold generate_id. destruct prefix; simpl; discriminate.
Defined.

End RefHost.

(** ** Vocabulary for the statements *)

Section Vocabulary.
Context `{Host} `{IdGen}.

(** [w] with the effects [l] added to its trace. *)
Definition with_effects (w : World) (l : list effect) : World :=
  {| this := this w; sockets := sockets w; random := random w;
     trace := trace w ++ l |}.

(** What [log(...args)] writes in [w]. *)
Definition log_effects (w : World) (args : list value) : list effect :=
  if debug (this w)
  then [ConsoleLog
          (map (fun arg =>
                  if bool_decide (typeof arg = "object") && negb (is_null arg)
                  then VString (JSON_stringify arg) else arg) args)]
  else [].

(** [data || {}]. *)
Definition or_empty (data : value) : value :=
  if truthy data then data else VObject [].

(** The event [send(eventName, data)] builds when the random source is
    at [seed]. *)
Definition outgoing_event (eventName : string) (data : value) (seed : nat) : value :=
  VObject (spread [("event_id", VString (generateId "evt_" seed));
                   ("type", VString eventName)]
                  (own_props (or_empty data))).

(** The world [send] leaves when it returns. *)
Definition after_send (w : World) (h : handle) (eventName : string) (data : value)
  : World :=
  let event := outgoing_event eventName data (random w) in
  {| this := this w; sockets := sockets w; random := S (random w);
     trace := trace w
              ++ [Dispatch ("client." +:+ eventName) event;
                  Dispatch "client.*" event]
              ++ log_effects w [VString "sent:"; VString eventName; event]
              ++ [WsSend h (JSON_stringify event)] |}.

(** [e1] happens before [e2] in [l]. *)
Definition before (e1 e2 : effect) (l : list effect) : Prop :=
  exists l1 l2 l3 : list effect, l = (l1 ++ e1 :: l2 ++ e2 :: l3)%list.

(** The value of property [k] of an object. *)
Definition prop_of (v : value) (k : string) : option value :=
  lookup_prop k (own_props v).

(** A decoded message without a [type]: reading [message.type] gives
    [undefined] (an object that lacks the field, an array, a number, a
    string, a boolean). *)
Definition untyped (message : value) : Prop :=
  get_member message "type" = Normal VUndefined.

(** Whether an effect is a dispatch, a wire write, a close of a socket. *)
Definition is_dispatch (e : effect) : bool :=
  match e with Dispatch _ _ => true | _ => false end.

Definition is_wire_write (e : effect) : bool :=
  match e with WsSend _ _ => true | _ => false end.

Definition is_ws_close (e : effect) : bool :=
  match e with WsClose _ => true | _ => false end.

End Vocabulary.

(** ** Histories

    The calls a client can make and the events the transport can emit,
    and the worlds they lead to from a freshly constructed object. *)
Section Histories.
Context `{Host} `{IdGen}.

Inductive step_label : Type :=
| CallConnect (g : globalThis) (model : option string)
| CallDisconnect
| CallSend (eventName : string) (data : value)
| Emit (h : handle) (ev : ws_event).

Definition step (l : step_label) (w : World) : World :=
  match l with
  | CallConnect g model => (connect g model w).2
  | CallDisconnect => (disconnect None w).2
  | CallSend eventName data => (send eventName data w).2
  | Emit h ev => (emit h ev w).2
  end.

Definition new_world (api : RealtimeAPI) (seed : nat) : World :=
  {| this := api; sockets := ∅; random := seed; trace := [] |}.

Inductive reachable : World -> Prop :=
| reachable_new api seed : ws api = None -> reachable (new_world api seed)
| reachable_step l w : reachable w -> reachable (step l w).

(** The stored handle is a socket whose 'open' listener has run. *)
Definition stored_socket_opened (w : World) : Prop :=
  forall h, ws (this w) = Some h ->
    exists sock, sockets w !! h = Some sock /\ 0 < open_listeners sock.

(** From [w] to [w'] the stored handle is kept or cleared, and every
    socket is still there with as many runs of its 'open' listener. *)
Definition keeps_opened (w w' : World) : Prop :=
  (ws (this w') = ws (this w) \/ ws (this w') = None)
  /\ forall h sock, sockets w !! h = Some sock ->
       exists sock', sockets w' !! h = Some sock'
                     /\ open_listeners sock' = open_listeners sock.

(** A computation that only ever does that. *)
Definition quiet {A} (m : M A) : Prop := forall w, keeps_opened w (m w).2.

End Histories.

(** ** Vocabulary for whole histories *)

Section Discipline.
Context `{Host} `{IdGen}.

(** The fields of [this] that only the constructor assigns. *)
Definition same_config (a b : RealtimeAPI) : Prop :=
  defaultUrl a = defaultUrl b /\ apiKey a = apiKey b
  /\ debug a = debug b /\ url a = url b.

(** A history: calls and transport events, oldest first. *)
Definition run (ls : list step_label) (w : World) : World :=
  foldl (fun w' l => step l w') w ls.

(** The effects one step adds. *)
Definition step_effects (l : step_label) (w : World) : list effect :=
  drop (length (trace w)) (trace (step l w)).

Definition is_console_log (e : effect) : bool :=
  match e with ConsoleLog _ => true | _ => false end.

(** What an object in state [api] may do to the outside: calls on a socket
    go to the stored handle, console lines need debug mode. *)
Definition permitted (api : RealtimeAPI) (e : effect) : Prop :=
  match e with
  | WsSend h _ | WsClose h => ws api = Some h
  | ConsoleLog _ => debug api = true
  | _ => True
  end.

(** From [w] to [w'] the configuration is kept and the trace grows by
    effects that were permitted in [w]. *)
Definition orderly (w w' : World) : Prop :=
  same_config (this w) (this w')
  /\ exists l : list effect,
       trace w' = (trace w ++ l)%list /\ Forall (permitted (this w)) l.

(** The same, for a computation that keeps or clears the stored handle. *)
Definition disciplined (w w' : World) : Prop :=
  orderly w w' /\ (ws (this w') = ws (this w) \/ ws (this w') = None).

Definition tidy {A} (m : M A) : Prop := forall w, disciplined w (m w).2.

(** A socket as [connect] creates it. *)
Definition new_socket (target : string) : WebSocket :=
  {| address := target; connectionErrorHandler := true;
     open_listeners := 0; promise := Pending |}.

(** The world after [connect] has created socket [h] for [target]. *)
Definition after_connect (w : World) (h : handle) (target : string) : World :=
  {| this := this w; sockets := <[h := new_socket target]> (sockets w);
     random := random w; trace := trace w ++ [NewWebSocket h target] |}.

(** The address [connect] uses under Node.js. *)
Definition node_target (api : RealtimeAPI) : string :=
  default node_fallback_url (or_str (url api) None).

(** The address [connect] uses in a browser, from the parsed stored URL. *)
Definition browser_target (urlObj : URL) (model : option string) : string :=
  let params := searchParams urlObj in
  if URLSearchParams.has "model" params
     || URLSearchParams.has "deployment" params
     || includes (hostname urlObj) "openai.azure.com"
     || negb (truthy_str model)
  then URL_toString urlObj
  else URL_toString
         (with_searchParams urlObj
            (URLSearchParams.append "model" (default "" model) params)).

(** The payload of the local [close] event. *)
Definition close_notice (failed : bool) : value :=
  VObject [("error", VBool failed)].

(** The log line of a post-open 'error' or 'close'. *)
Definition closing_line (failed : bool) (u : option string) : value :=
  VString ((if failed then "Error, disconnected from " else "Disconnected from ")
           +:+ dq +:+ default "undefined" u +:+ dq).

(** The world after a post-open 'error' ([failed]) or 'close' on [h]. *)
Definition after_closing (w : World) (h : handle) (failed : bool) : World :=
  let stored := bool_decide (ws (this w) = Some h) in
  {| this := if stored then set_ws None (this w) else this w;
     sockets := sockets w;
     random := random w;
     trace := trace w
              ++ (if stored then [WsClose h] else [])
              ++ log_effects w [closing_line failed (url (this w))]
              ++ [Dispatch "close" (close_notice failed)] |}.

(** The world after 'open' on socket [h], whose record was [sock]. *)
Definition after_open (w : World) (h : handle) (sock : WebSocket) : World :=
  {| this := set_ws (Some h) (this w);
     sockets := <[h := {| address := address sock;
                          connectionErrorHandler := false;
                          open_listeners := S (open_listeners sock);
                          promise := Fulfilled |}]> (sockets w);
     random := random w;
     trace := trace w
              ++ log_effects w
                   [VString ("Connected to " +:+ dq
                             +:+ default "undefined" (url (this w)) +:+ dq)]
              ++ [Resolve h] |}.

(** When the constructor lets an input through. *)
Definition constructible (g : globalThis) (url_arg explicit : option string)
    (flag : bool) : Prop :=
  truthy_str url_arg = true
  /\ (exists urlObj,
        URL_new (default "" url_arg) = Some urlObj
        /\ let embedded := URLSearchParams.get "api-key" (searchParams urlObj) in
           truthy_str embedded || truthy_str explicit = true
           /\ (truthy_str embedded && truthy_str explicit = true ->
               embedded = explicit))
  /\ (document g = false \/ flag = true).

End Discipline.

(** ** A scenario for the closed examples *)
Module Scenario.
Import RefHost.

Definition node : globalThis := {| document := false |}.
Definition browser : globalThis := {| document := true |}.

Definition endpoint : string := "wss://h.example/v1/realtime".
Definition endpoint_with_key : string := "wss://h.example/v1/realtime?api-key=k".

Definition endpoint_url : URL :=
  {| origin_path := endpoint; hostname := "h.example";
     searchParams := [("api-key", "k")]; hash := "" |}.

(** A client built for [endpoint_with_key], before any call. *)
Definition idle : World := new_world (constructed "k" endpoint_url false) 0.

(** After [connect()], before the transport answers; the socket is 0. *)
Definition connecting : World := step (CallConnect node (Some default_model)) idle.

(** After the transport has opened socket 0. *)
Definition connected : World := step (Emit 0 EvOpen) connecting.

(** Socket 0 as [connect] leaves it, and as 'open' leaves it. *)
Definition pending_socket : WebSocket :=
  {| address := endpoint_with_key; connectionErrorHandler := true;
     open_listeners := 0; promise := Pending |}.

Definition open_socket : WebSocket :=
  {| address := endpoint_with_key; connectionErrorHandler := false;
     open_listeners := 1; promise := Fulfilled |}.

(** The error a failed [connect()] is rejected with. *)
Definition connect_failure : exn :=
  Error (msg_could_not_connect (Some endpoint_with_key)).

(** The text of the JSON object with the one member foo: 1. *)
Definition untyped_text : string := "{" +:+ quoted "foo" +:+ ":1}".

(** Payloads, and the event the first [send] of [foo_payload] builds. *)
Definition foo_payload : value := VObject [("foo", VNumber 1)].

Definition foo_event : value :=
  VObject [("event_id", VString "evt_n0"); ("type", VString "response.create");
           ("foo", VNumber 1)].

Definition stamped_payload : value :=
  VObject [("event_id", VString ""); ("type", VString "other")].



(** The address a browser connects to from [endpoint_with_key]. *)
Definition browser_address : string :=
  "wss://h.example/v1/realtime?api-key=k&model=gpt-4o-realtime-preview-2024-10-01".

(** Socket 0 after a failed connection attempt. *)
Definition failed_socket : WebSocket :=
  {| address := endpoint_with_key; connectionErrorHandler := true;
     open_listeners := 0; promise := Rejected connect_failure |}.

(** connect, open, send, disconnect. *)
Definition session : list step_label :=
  [CallConnect node (Some default_model); Emit 0 EvOpen;
   CallSend "response.create" foo_payload; CallDisconnect].

End Scenario.

(** * Properties *)

(** ** Properties of objects and query lists *)

Section PropsFacts.

Lemma lookup_set_prop_eq k v props :
  lookup_prop k (set_prop k v props) = Some v.
Proof.
  induction props as [|[k' v'] rest IH]; simpl.
  - by rewrite String.eqb_refl.
  - destruct (String.eqb k k') eqn:E; simpl.
    + by rewrite String.eqb_refl.
    + by rewrite E.
Qed.

Lemma lookup_set_prop_ne k k' v props :
  k ≠ k' -> lookup_prop k (set_prop k' v props) = lookup_prop k props.
Proof.
  intros Hne. induction props as [|[k2 v2] rest IH]; simpl.
  - destruct (String.eqb k k') eqn:E; [|done].
    apply String.eqb_eq in E. done.
  - destruct (String.eqb k' k2) eqn:E; simpl.
    + apply String.eqb_eq in E. subst k2.
      destruct (String.eqb k k') eqn:E'; [|done].
      apply String.eqb_eq in E'. done.
    + by rewrite IH.
Qed.

Lemma lookup_prop_None k props :
  lookup_prop k props = None <-> k ∉ props.*1.
Proof.
  induction props as [|[k' v'] rest IH]; simpl.
  - split; [intros _; apply not_elem_of_nil | done].
  - destruct (String.eqb k k') eqn:E.
    + apply String.eqb_eq in E. subst k'. split; [done|].
      intros Hn. exfalso. apply Hn. left.
    + apply String.eqb_neq in E. rewrite IH. rewrite not_elem_of_cons. tauto.
Qed.

(** A key the source does not define keeps the target's value. *)
Lemma lookup_spread_absent k target source :
  lookup_prop k source = None ->
  lookup_prop k (spread target source) = lookup_prop k target.
Proof.
  unfold spread. revert target.
  induction source as [|[k' v'] rest IH]; intros target Hl; simpl in *; [done|].
  destruct (String.eqb k k') eqn:E; [done|].
  apply String.eqb_neq in E.
  rewrite IH by done. by apply lookup_set_prop_ne.
Qed.

(** A key the source defines takes the source's value. *)
Lemma lookup_spread_present k v target source :
  NoDup source.*1 ->
  lookup_prop k source = Some v ->
  lookup_prop k (spread target source) = Some v.
Proof.
  unfold spread. revert target.
  induction source as [|[k' v'] rest IH]; intros target Hnd Hl; simpl in *; [done|].
  apply NoDup_cons in Hnd as [Hnotin Hnd].
  destruct (String.eqb k k') eqn:E.
  - apply String.eqb_eq in E. subst k'. injection Hl as ->.
    apply lookup_prop_None in Hnotin.
    pose proof (lookup_spread_absent k (set_prop k v target) rest Hnotin) as Hs.
    unfold spread in Hs. rewrite Hs. apply lookup_set_prop_eq.
  - by apply IH.
Qed.

Lemma index_props_keys items :
  (index_props items).*1 = map pretty (seq 0 (length items)).
Proof.
  unfold index_props.
  assert (Hgen : forall (n : nat) (l : list value),
             (imap (fun i v => (pretty (n + i), v)) l).*1
             = map pretty (seq n (length l))).
  { intros n l. revert n. induction l as [|x l IH]; intros n; simpl; [done|].
    f_equal; [by rewrite Nat.add_0_r|].
    rewrite <- (IH (S n)). f_equal. apply imap_ext. intros i y _. simpl.
    by rewrite Nat.add_succ_r. }
  apply (Hgen 0).
Qed.

(** The index properties of an array have pairwise distinct keys. *)
Lemma index_props_NoDup items : NoDup (index_props items).*1.
Proof.
  rewrite index_props_keys. apply NoDup_fmap_2; [apply _|apply NoDup_seq].
Qed.

Lemma searchParams_get_set name v l :
  URLSearchParams.get name (URLSearchParams.set name v l) = Some v.
Proof.
  induction l as [|[n v'] rest IH]; simpl.
  - by rewrite String.eqb_refl.
  - destruct (String.eqb n name) eqn:E; simpl.
    + by rewrite String.eqb_refl.
    + by rewrite E.
Qed.

Lemma truthy_str_Some s : s ≠ "" -> truthy_str (Some s) = true.
Proof.
  intros Hs. simpl. destruct (String.eqb s "") eqn:E; [|done].
  apply String.eqb_eq in E. done.
Qed.

Lemma truthy_str_true o : truthy_str o = true -> exists s, o = Some s /\ s ≠ "".
Proof.
  destruct o as [s|]; simpl; [|done].
  destruct (String.eqb s "") eqn:E; [done|].
  apply String.eqb_neq in E. eauto.
Qed.

End PropsFacts.

(** ** The constructor *)

Section ConstructorFacts.
Context `{Host}.

Lemma with_api_key_get key urlObj :
  URLSearchParams.get "api-key" (searchParams (with_api_key key urlObj)) = Some key.
Proof. apply searchParams_get_set. Qed.

Lemma truthy_str_false_or_str o b : truthy_str o = false -> or_str o b = b.
Proof. unfold or_str. by intros ->. Qed.

(** The URL branch with the embedded credential present. *)
Lemma resolve_url_embedded url_arg explicit this0 urlObj X :
  url_arg ≠ "" ->
  URL_new url_arg = Some urlObj ->
  URLSearchParams.get "api-key" (searchParams urlObj) = Some X ->
  X ≠ "" ->
  (truthy_str explicit = false \/ explicit = Some X) ->
  resolve_url (Some url_arg) explicit this0
  = Normal (set_url (Some (URL_toString urlObj)) (set_apiKey (Some X) this0)).
Proof.
  intros Hurl Hparse Hget HX Hexp. unfold resolve_url.
  rewrite (truthy_str_Some _ Hurl). simpl default. rewrite Hparse, Hget.
  rewrite (truthy_str_Some _ HX). simpl negb. simpl andb.
  destruct Hexp as [Hf | ->].
  - rewrite Hf. simpl. unfold or_str. by rewrite (truthy_str_Some _ HX).
  - rewrite (truthy_str_Some _ HX). rewrite bool_decide_eq_true_2 by done.
    simpl. unfold or_str. by rewrite (truthy_str_Some _ HX).
Qed.

(** The URL branch with only the explicit credential present. *)
Lemma resolve_url_explicit url_arg this0 urlObj Y :
  url_arg ≠ "" ->
  URL_new url_arg = Some urlObj ->
  truthy_str (URLSearchParams.get "api-key" (searchParams urlObj)) = false ->
  Y ≠ "" ->
  resolve_url (Some url_arg) (Some Y) this0
  = Normal (set_url (Some (URL_toString (with_api_key Y urlObj)))
              (set_apiKey (Some Y) this0)).
Proof.
  intros Hurl Hparse Hemb HY. unfold resolve_url.
  rewrite (truthy_str_Some _ Hurl). simpl default. rewrite Hparse, Hemb.
  rewrite (truthy_str_Some _ HY). simpl.
  by rewrite (truthy_str_false_or_str _ _ Hemb).
Qed.

Lemma browser_gate_pass g flag this0 :
  document g = false \/ flag = true ->
  browser_gate g flag this0 = Normal this0.
Proof.
  unfold browser_gate. intros [-> | ->]; [done|].
  by destruct (document g && truthy_str (apiKey this0)).
Qed.

(** Without a URL the constructor stops at the unbound identifier,
    whatever else it is given. *)
Lemma constructor_falsy_url g url_arg explicit flag dbg :
  truthy_str url_arg = false ->
  constructor g url_arg explicit flag dbg
  = Throw (ReferenceError msg_defaultUrl_undefined).
Proof. intros Hu. unfold constructor, resolve_url. by rewrite Hu. Qed.

Lemma constructor_unfold g url_arg explicit flag dbg this1 :
  resolve_url url_arg explicit
    {| defaultUrl := "wss://api.openai.com/v1/realtime";
       apiKey := or_str explicit None; debug := dbg; ws := None; url := None |}
  = Normal this1 ->
  constructor g url_arg explicit flag dbg = browser_gate g flag this1.
Proof. intros Hr. unfold constructor. by rewrite Hr. Qed.

(** C1 (amended): for a URL that parses, with X the non-empty value of its
    [api-key] parameter and Y the non-empty explicit credential: X ≠ Y makes
    the constructor throw the mismatch error, in every environment; X = Y,
    or X alone, gives an object whose credential is X and whose stored URL
    is the serialization of the parsed URL, which carries api-key=X; with
    neither credential the constructor throws the missing-key error; with Y
    alone the object has credential Y and its stored URL is the
    serialization of the URL after api-key was set to Y.  The three
    successes hold where the browser gate lets the object through: no
    [document] global, or the opt-in flag set. *)
Theorem constructor_resolves_credential
    (g : globalThis) (url_arg : string) (explicit : option string)
    (flag dbg : bool) (urlObj : URL) :
  url_arg ≠ "" ->
  URL_new url_arg = Some urlObj ->
  let embedded := URLSearchParams.get "api-key" (searchParams urlObj) in
  let built := constructor g (Some url_arg) explicit flag dbg in
  let gate_passes := document g = false \/ flag = true in
  (forall X Y, embedded = Some X -> X ≠ "" -> explicit = Some Y -> Y ≠ "" ->
     X ≠ Y -> built = Throw (Error msg_key_mismatch))
  /\ (forall X, embedded = Some X -> X ≠ "" ->
        explicit = Some X \/ truthy_str explicit = false ->
        gate_passes ->
        built = Normal (constructed X urlObj dbg))
  /\ (truthy_str embedded = false -> truthy_str explicit = false ->
        built = Throw (Error msg_key_required))
  /\ (forall Y, truthy_str embedded = false -> explicit = Some Y -> Y ≠ "" ->
        gate_passes ->
        built = Normal (constructed Y (with_api_key Y urlObj) dbg)
        /\ URLSearchParams.get "api-key" (searchParams (with_api_key Y urlObj))
           = Some Y).
Proof.
  intros Hurl Hparse embedded built gate_passes.
  split; [|split; [|split]].
  - intros X Y HX HXne HY HYne Hdiff. subst built embedded explicit.
    unfold constructor, resolve_url.
    rewrite (truthy_str_Some _ Hurl). simpl default. rewrite Hparse, HX.
    rewrite (truthy_str_Some _ HXne), (truthy_str_Some _ HYne).
    rewrite bool_decide_eq_false_2 by congruence. done.
  - intros X HX HXne Hexp Hgate. subst built.
    assert (Hexp' : truthy_str explicit = false \/ explicit = Some X) by tauto.
    rewrite (constructor_unfold _ _ _ _ _ _
               (resolve_url_embedded _ explicit _ _ _ Hurl Hparse HX HXne Hexp')).
    rewrite browser_gate_pass by done.
    unfold constructed, set_url, set_apiKey. simpl. done.
  - intros Hemb Hexp. subst built embedded.
    unfold constructor, resolve_url.
    rewrite (truthy_str_Some _ Hurl). simpl default. rewrite Hparse, Hemb, Hexp.
    done.
  - intros Y Hemb -> HYne Hgate. subst built. split; [|apply with_api_key_get].
    rewrite (constructor_unfold _ _ _ _ _ _
               (resolve_url_explicit _ _ _ _ Hurl Hparse Hemb HYne)).
    rewrite browser_gate_pass by done.
    unfold constructed, set_url, set_apiKey. simpl. done.
Qed.

(** C8 (defect in the code): without a URL the constructor never reaches
    the default endpoint: the assignment reads the unbound identifier
    [defaultUrl] and construction ends in a ReferenceError, with or
    without a credential, in every environment. *)
Theorem constructor_without_url_throws
    (g : globalThis) (explicit : option string) (flag dbg : bool) :
  constructor g None explicit flag dbg
  = Throw (ReferenceError msg_defaultUrl_undefined).
Proof. by apply constructor_falsy_url. Qed.

(** C9 (amended): in a browser-like environment, for a URL that parses and
    credentials that resolve (one of the embedded and the explicit
    credential is present, and they are equal when both are), the
    constructor throws the opt-in error when the flag is not set, and
    returns the object, holding the resolved credential, when it is. *)
Theorem constructor_browser_gate
    (g : globalThis) (url_arg : string) (explicit : option string)
    (flag dbg : bool) (urlObj : URL) :
  document g = true ->
  url_arg ≠ "" ->
  URL_new url_arg = Some urlObj ->
  let embedded := URLSearchParams.get "api-key" (searchParams urlObj) in
  truthy_str embedded || truthy_str explicit = true ->
  (truthy_str embedded && truthy_str explicit = true -> embedded = explicit) ->
  let built := constructor g (Some url_arg) explicit flag dbg in
  if flag
  then exists api, built = Normal api
                   /\ apiKey api = or_str embedded explicit
                   /\ truthy_str (apiKey api) = true
  else built = Throw (Error msg_browser_key).
Proof.
  intros Hdoc Hurl Hparse embedded Hpresent Hagree built.
  destruct (truthy_str embedded) eqn:Hemb.
  - destruct (truthy_str_true _ Hemb) as (X & HX & HXne).
    assert (Hexp : truthy_str explicit = false \/ explicit = Some X).
    { destruct (truthy_str explicit) eqn:Hexp; [right|by left].
      rewrite <- HX. symmetry. by apply Hagree. }
    subst built.
    rewrite (constructor_unfold _ _ _ _ _ _
               (resolve_url_embedded _ _ _ _ _ Hurl Hparse HX HXne Hexp)).
    unfold browser_gate. rewrite Hdoc. simpl apiKey.
    rewrite (truthy_str_Some _ HXne). simpl.
    destruct flag; simpl; [|done].
    eexists; split; [done|]. simpl. unfold or_str. rewrite Hemb.
    split; [by rewrite HX | by apply truthy_str_Some].
  - simpl in Hpresent.
    destruct (truthy_str_true _ Hpresent) as (Y & -> & HYne).
    subst built.
    rewrite (constructor_unfold _ _ _ _ _ _
               (resolve_url_explicit _ _ _ _ Hurl Hparse Hemb HYne)).
    unfold browser_gate. rewrite Hdoc. simpl apiKey.
    rewrite (truthy_str_Some _ HYne). simpl.
    destruct flag; simpl; [|done].
    eexists; split; [done|]. simpl. unfold or_str. rewrite Hemb.
    split; [done | by apply truthy_str_Some].
Qed.

End ConstructorFacts.


(** ** The methods *)

Section MethodFacts.
Context `{Host} `{IdGen}.

Lemma with_effects_nil w : with_effects w [] = w.
Proof. destruct w. unfold with_effects. simpl. by rewrite app_nil_r. Qed.

Lemma log_run args w : log args w = (Normal true, with_effects w (log_effects w args)).
Proof.
  unfold log, log_effects, bind, gets. simpl.
  destruct (debug (this w)); simpl; [reflexivity|].
  unfold ret. by rewrite with_effects_nil.
Qed.

(** [send] on a connected object with an acceptable payload. *)
Lemma send_connected w h eventName data :
  ws (this w) = Some h ->
  typeof (or_empty data) = "object" ->
  send eventName data w = (Normal true, after_send w h eventName data).
Proof.
  intros Hws Hobj. unfold send, isConnected, bind, gets. simpl.
  rewrite Hws. simpl.
  fold (or_empty data). rewrite bool_decide_eq_true_2 by done. simpl.
  rewrite log_run. simpl. rewrite Hws. simpl.
  unfold after_send, outgoing_event, with_effects, log_effects. simpl.
  do 2 f_equal. by rewrite <- !app_assoc.
Qed.

Lemma effects_of_spec {A} (m : M A) w l :
  trace (m w).2 = (trace w ++ l)%list -> effects_of m w = l.
Proof. intros Ht. unfold effects_of. rewrite Ht. by rewrite drop_app_length. Qed.

Lemma effects_of_unchanged {A} (m : M A) w c : m w = (c, w) -> effects_of m w = [].
Proof.
  intros Hm. apply effects_of_spec. rewrite Hm. simpl. by rewrite app_nil_r.
Qed.

Lemma before_intro e1 e2 (l1 l2 l3 : list effect) :
  before e1 e2 (l1 ++ e1 :: l2 ++ e2 :: l3).
Proof. by exists l1, l2, l3. Qed.

Lemma send_effects w h eventName data :
  ws (this w) = Some h ->
  typeof (or_empty data) = "object" ->
  let event := outgoing_event eventName data (random w) in
  effects_of (send eventName data) w
  = ([Dispatch ("client." +:+ eventName) event; Dispatch "client.*" event]
     ++ log_effects w [VString "sent:"; VString eventName; event]
     ++ [WsSend h (JSON_stringify event)])%list.
Proof.
  intros Hws Hobj event. apply effects_of_spec.
  by rewrite (send_connected _ _ _ _ Hws Hobj).
Qed.

Lemma log_effects_no_dispatch w args e :
  e ∈ log_effects w args -> is_dispatch e = false /\ is_wire_write e = false.
Proof.
  unfold log_effects. destruct (debug (this w)).
  - intros ->%list_elem_of_singleton. done.
  - intros []%not_elem_of_nil.
Qed.

(** C4 (amended): on a connected object, for a payload that is absent
    (falsy) or an object, [send] performs, in this order, the dispatch under
    [client.<type>], the dispatch under [client.*], the log line, and only
    then the wire write of the serialized event: both dispatches come
    before the wire write, and nothing that precedes them in the call is a
    wire write. *)
Theorem send_dispatches_before_wire_write
    (w : World) (h : handle) (eventName : string) (data : value) :
  ws (this w) = Some h ->
  typeof (or_empty data) = "object" ->
  let event := outgoing_event eventName data (random w) in
  let wire := WsSend h (JSON_stringify event) in
  exists logged,
    effects_of (send eventName data) w
    = ([Dispatch ("client." +:+ eventName) event; Dispatch "client.*" event]
       ++ logged ++ [wire])%list
    /\ Forall (fun e => is_dispatch e = false /\ is_wire_write e = false) logged
    /\ before (Dispatch ("client." +:+ eventName) event) wire
         (effects_of (send eventName data) w)
    /\ before (Dispatch "client.*" event) wire
         (effects_of (send eventName data) w).
Proof.
  intros Hws Hobj event wire.
  exists (log_effects w [VString "sent:"; VString eventName; event]).
  rewrite (send_effects _ _ _ _ Hws Hobj). fold event. fold wire.
  split; [done|]. split.
  { apply Forall_forall. intros e He. by eapply log_effects_no_dispatch. }
  split.
  - apply (before_intro _ _ [] (Dispatch "client.*" event :: _) []).
  - apply (before_intro _ _ [Dispatch ("client." +:+ eventName) event] _ []).
Qed.

(** C5 (amended): on a connected object, for a payload that is absent
    (falsy) or an object, [send] returns true and dispatches one new event
    object under [client.<type>] and under [client.*]; the event holds
    every key/value pair of the payload; its [type] is the given type when
    the payload has no [type] key, and its [event_id] is the id generated
    in this call, which is non-empty and differs from the id of any other
    state of the random source, when the payload has no [event_id] key;
    the call advances the random source.  The keys of the payload are
    pairwise distinct, as those of any object are. *)
Theorem send_event_contents
    (w : World) (h : handle) (eventName : string) (data : value) :
  ws (this w) = Some h ->
  typeof (or_empty data) = "object" ->
  NoDup (own_props (or_empty data)).*1 ->
  let event := outgoing_event eventName data (random w) in
  let fresh_id := generateId "evt_" (random w) in
  send eventName data w = (Normal true, after_send w h eventName data)
  /\ Dispatch ("client." +:+ eventName) event ∈ effects_of (send eventName data) w
  /\ Dispatch "client.*" event ∈ effects_of (send eventName data) w
  /\ (forall k v, prop_of (or_empty data) k = Some v -> prop_of event k = Some v)
  /\ (prop_of (or_empty data) "type" = None ->
      prop_of event "type" = Some (VString eventName))
  /\ (prop_of (or_empty data) "event_id" = None ->
      prop_of event "event_id" = Some (VString fresh_id))
  /\ fresh_id ≠ ""
  /\ (forall seed, seed ≠ random w -> generateId "evt_" seed ≠ fresh_id)
  /\ random (after_send w h eventName data) = S (random w).
Proof.
  intros Hws Hobj Hnd event fresh_id.
  split; [by apply send_connected|].
  rewrite (send_effects _ _ _ _ Hws Hobj). fold event.
  split; [set_solver|]. split; [set_solver|].
  split.
  { intros k v Hk. unfold prop_of, event, outgoing_event. simpl.
    by apply lookup_spread_present. }
  split.
  { intros Hk. unfold prop_of, event, outgoing_event. simpl.
    by rewrite lookup_spread_absent. }
  split.
  { intros Hk. unfold prop_of, event, outgoing_event. simpl.
    by rewrite lookup_spread_absent. }
  split; [apply generateId_nonempty|].
  split; [|done].
  intros seed Hne Heq. apply Hne. by eapply generateId_unique.
Qed.

(** C6 (amended): [send] on an object that is not connected throws the
    not-connected error and leaves the world as it was (no wire write, no
    dispatch); on a connected object, a payload that is truthy and whose
    [typeof] is not [object] (a non-empty string, a non-zero number,
    [true]) makes it throw the payload error, again with no effect. *)
Theorem send_rejects
    (w : World) (eventName : string) (data : value) :
  (ws (this w) = None ->
     send eventName data w = (Throw (Error msg_not_connected), w)
     /\ effects_of (send eventName data) w = [])
  /\ (forall h, ws (this w) = Some h ->
        truthy data = true -> typeof data ≠ "object" ->
        send eventName data w = (Throw (Error msg_data_object), w)
        /\ effects_of (send eventName data) w = []).
Proof.
  split.
  - intros Hws.
    assert (Hs : send eventName data w = (Throw (Error msg_not_connected), w)).
    { unfold send, isConnected, bind, gets. simpl. by rewrite Hws. }
    split; [done|]. by eapply effects_of_unchanged.
  - intros h Hws Ht Hty.
    assert (Hs : send eventName data w = (Throw (Error msg_data_object), w)).
    { unfold send, isConnected, bind, gets. simpl. rewrite Hws. simpl.
      rewrite Ht. by rewrite bool_decide_eq_false_2. }
    split; [done|]. by eapply effects_of_unchanged.
Qed.

(** C10: on a connected object, when the payload object has an [event_id]
    or a [type] key, the event that is dispatched under [client.<type>]
    and [client.*] and whose serialization is written to the wire carries
    the payload's value for that key, not the generated id or the given
    type.  The keys of the payload are pairwise distinct, as those of any
    object are. *)
Theorem send_payload_overrides_stamps
    (w : World) (h : handle) (eventName : string) (props : list (string * value)) :
  ws (this w) = Some h ->
  NoDup props.*1 ->
  let event := outgoing_event eventName (VObject props) (random w) in
  send eventName (VObject props) w
  = (Normal true, after_send w h eventName (VObject props))
  /\ effects_of (send eventName (VObject props)) w
     = ([Dispatch ("client." +:+ eventName) event; Dispatch "client.*" event]
        ++ log_effects w [VString "sent:"; VString eventName; event]
        ++ [WsSend h (JSON_stringify event)])%list
  /\ (forall v, lookup_prop "event_id" props = Some v ->
        prop_of event "event_id" = Some v)
  /\ (forall v, lookup_prop "type" props = Some v ->
        prop_of event "type" = Some v).
Proof.
  intros Hws Hnd event.
  assert (Hobj : typeof (or_empty (VObject props)) = "object") by done.
  split; [by apply send_connected|].
  split; [by apply send_effects|].
  split; intros v Hv; unfold prop_of, event, outgoing_event; simpl;
    by apply lookup_spread_present.
Qed.

(** C7: [disconnect()] returns true in every world; it closes the stored
    socket when there is one and clears the handle, so that
    [isConnected()] is false; a second call returns true and changes
    nothing: no other close of the transport, no dispatch; neither call
    dispatches anything. *)
Theorem disconnect_idempotent (w : World) :
  let first := disconnect None w in
  let second := disconnect None first.2 in
  first.1 = Normal (VBool true)
  /\ effects_of (disconnect None) w
     = match ws (this w) with Some h => [WsClose h] | None => [] end
  /\ ws (this first.2) = None
  /\ (isConnected first.2).1 = Normal false
  /\ second = (Normal (VBool true), first.2)
  /\ effects_of (disconnect None) first.2 = [].
Proof.
  assert (Hidle : forall w', ws (this w') = None ->
             disconnect None w' = (Normal (VBool true), w')).
  { intros [[d k dbg o u] ss r t] Hw. simpl in Hw. subst o. reflexivity. }
  assert (Hfirst : ws (this (disconnect None w).2) = None).
  { unfold disconnect, bind, gets. simpl. by destruct (ws (this w)). }
  simpl. split.
  { unfold disconnect, bind, gets. simpl. by destruct (ws (this w)). }
  split.
  { apply effects_of_spec. unfold disconnect, bind, gets. simpl.
    destruct (ws (this w)); simpl; [done|]. by rewrite app_nil_r. }
  split; [done|].
  split; [unfold isConnected, gets; simpl; by rewrite Hfirst|].
  split; [by apply Hidle|].
  eapply effects_of_unchanged. by apply Hidle.
Qed.

(** *** Inbound messages *)

Lemma receive_run eventName event w :
  receive eventName event w
  = (Normal true,
     with_effects w
       (log_effects w [VString "received:"; eventName; event]
        ++ [Dispatch ("server." +:+ to_string eventName) event;
            Dispatch "server.*" event])).
Proof.
  unfold receive, bind. rewrite log_run. simpl.
  unfold with_effects, log_effects. simpl. do 2 f_equal.
  by rewrite <- !app_assoc.
Qed.

Lemma on_message_malformed raw w :
  JSON_parse raw = None -> on_message raw w = (Throw (SyntaxError "JSON.parse"), w).
Proof. intros Hp. unfold on_message. by rewrite Hp. Qed.

Lemma untyped_object props :
  lookup_prop "type" props = None -> untyped (VObject props).
Proof. intros Ht. unfold untyped. simpl. by rewrite Ht. Qed.

Lemma on_message_untyped raw message w :
  JSON_parse raw = Some message ->
  untyped message ->
  on_message raw w
  = (Normal tt,
     with_effects w
       (log_effects w [VString "received:"; VUndefined; message]
        ++ [Dispatch "server.undefined" message; Dispatch "server.*" message])).
Proof.
  intros Hp Ht. unfold on_message. rewrite Hp, Ht.
  unfold bind. by rewrite receive_run.
Qed.

Lemma on_message_null raw w :
  JSON_parse raw = Some VNull -> exists e, on_message raw w = (Throw (TypeError e), w).
Proof. intros Hp. unfold on_message. rewrite Hp. simpl. by eexists. Qed.

Lemma emit_message h sock raw w :
  sockets w !! h = Some sock -> emit h (EvMessage raw) w = on_message raw w.
Proof. intros Hs. unfold emit, bind, gets. simpl. by rewrite Hs. Qed.

(** C3 (amended): when the transport delivers a message on a socket of the
    object, text that [JSON.parse] rejects makes the 'message' listener
    throw the parse error back into the emitter, with nothing dispatched
    and the world untouched (decoded [null] does the same with a
    TypeError); a decoded value without a [type], such as a JSON object
    that lacks the field, is logged and dispatched as it is under
    [server.undefined] and [server.*], with no error report.  In every
    case [this], and with it the stored handle, is unchanged: the object
    stays connected. *)
Theorem inbound_malformed_message
    (w : World) (h : handle) (sock : WebSocket) (raw : string) :
  sockets w !! h = Some sock ->
  (JSON_parse raw = None ->
     emit h (EvMessage raw) w = (Throw (SyntaxError "JSON.parse"), w)
     /\ effects_of (emit h (EvMessage raw)) w = [])
  /\ (JSON_parse raw = Some VNull ->
      exists e, emit h (EvMessage raw) w = (Throw (TypeError e), w))
  /\ (forall message,
        JSON_parse raw = Some message ->
        untyped message ->
        (emit h (EvMessage raw) w).1 = Normal tt
        /\ effects_of (emit h (EvMessage raw)) w
           = (log_effects w [VString "received:"; VUndefined; message]
              ++ [Dispatch "server.undefined" message;
                  Dispatch "server.*" message])%list
        /\ this (emit h (EvMessage raw) w).2 = this w).
Proof.
  intros Hs. rewrite (emit_message _ _ _ _ Hs). split; [|split].
  - intros Hp.
    assert (He : emit h (EvMessage raw) w = (Throw (SyntaxError "JSON.parse"), w)).
    { rewrite (emit_message _ _ _ _ Hs). by apply on_message_malformed. }
    split; [by rewrite <- (emit_message h sock raw w Hs)|].
    by eapply effects_of_unchanged.
  - by apply on_message_null.
  - intros message Hp Ht.
    pose proof (on_message_untyped _ _ w Hp Ht) as Hm.
    assert (He : emit h (EvMessage raw) w = on_message raw w)
      by apply (emit_message _ _ _ _ Hs).
    rewrite Hm in He |- *.
    split; [done|]. split; [|done].
    apply effects_of_spec. by rewrite He.
Qed.

(** *** A transport error before 'open' *)

(** [disconnect(ws)] with a socket that is not the stored one does
    nothing and returns [undefined]. *)
Lemma disconnect_other_socket h w :
  ws (this w) ≠ Some h -> disconnect (Some h) w = (Normal VUndefined, w).
Proof.
  intros Hne. unfold disconnect, bind, gets. simpl.
  by rewrite (bool_decide_eq_false_2 (ws (this w) = Some h)).
Qed.

(** The world after the pending promise of socket [h] has been rejected. *)
Lemma emit_error_pending h sock w :
  sockets w !! h = Some sock ->
  connectionErrorHandler sock = true ->
  open_listeners sock = 0 ->
  promise sock = Pending ->
  ws (this w) ≠ Some h ->
  let e := Error (msg_could_not_connect (url (this w))) in
  emit h EvError w
  = (Normal tt,
     {| this := this w;
        sockets := <[h := {| address := address sock;
                             connectionErrorHandler := true;
                             open_listeners := 0;
                             promise := Rejected e |}]> (sockets w);
        random := random w;
        trace := trace w ++ [Reject h e] |}).
Proof.
  intros Hs Hc Ho Hp Hne e. unfold emit, bind, gets. simpl.
  rewrite Hs, Hc, Ho. simpl. unfold on_connection_error, bind.
  rewrite (disconnect_other_socket _ _ Hne). simpl.
  unfold settle, bind, gets. simpl. rewrite Hs, Hp. simpl.
  rewrite Hc, Ho. done.
Qed.

(** What a [connect] that returns has done: the object was idle and is
    unchanged, and the returned handle is a new socket that waits for
    'open' or 'error' with its promise pending. *)
Lemma connect_returns_pending g model w h w1 :
  connect g model w = (Normal h, w1) ->
  ws (this w) = None
  /\ this w1 = this w
  /\ sockets w !! h = None
  /\ exists target,
       sockets w1 !! h
       = Some {| address := target; connectionErrorHandler := true;
                 open_listeners := 0; promise := Pending |}.
Proof.
  unfold connect, isConnected, bind, gets. simpl.
  destruct (ws (this w)) as [h0|] eqn:Hws; simpl; [discriminate|].
  assert (Hfresh : sockets w !! fresh (dom (sockets w)) = None).
  { apply not_elem_of_dom. apply is_fresh. }
  destruct (document g).
  - destruct (URL_new (default "undefined" (url (this w)))); simpl; [|discriminate].
    intros [= <- <-]. simpl. repeat split; [done|].
    eexists. by rewrite lookup_insert_eq.
  - simpl. intros [= <- <-]. simpl. repeat split; [done|].
    eexists. by rewrite lookup_insert_eq.
Qed.

(** An 'error' right after [connect]: the promise is rejected, nothing
    else happens, and the object is idle. *)
Lemma connect_then_error g model w h w1 :
  connect g model w = (Normal h, w1) ->
  let e := Error (msg_could_not_connect (url (this w))) in
  (emit h EvError w1).1 = Normal tt
  /\ effects_of (emit h EvError) w1 = [Reject h e]
  /\ ws (this (emit h EvError w1).2) = None.
Proof.
  intros Hc e.
  destruct (connect_returns_pending _ _ _ _ _ Hc) as (Hidle & Hthis & _ & target & Hs).
  assert (Hne : ws (this w1) ≠ Some h) by (rewrite Hthis, Hidle; discriminate).
  pose proof (emit_error_pending _ _ _ Hs eq_refl eq_refl eq_refl Hne) as He.
  simpl in He. rewrite Hthis in He. rewrite He. simpl.
  split; [done|]. split; [|done].
  apply effects_of_spec. by rewrite He.
Qed.

(** *** An invariant of all histories *)

Lemma keeps_opened_refl w : keeps_opened w w.
Proof. split; [by left|]. intros h sock Hs. by exists sock. Qed.

Lemma keeps_opened_trans w1 w2 w3 :
  keeps_opened w1 w2 -> keeps_opened w2 w3 -> keeps_opened w1 w3.
Proof.
  intros [Hws1 Hs1] [Hws2 Hs2]. split.
  - destruct Hws2 as [-> | ->]; [done | by right].
  - intros h sock Hs. destruct (Hs1 _ _ Hs) as (sock' & Hs' & Ho').
    destruct (Hs2 _ _ Hs') as (sock'' & Hs'' & Ho'').
    exists sock''. split; [done | congruence].
Qed.

Lemma keeps_opened_invariant w w' :
  stored_socket_opened w -> keeps_opened w w' -> stored_socket_opened w'.
Proof.
  intros Hinv [Hws Hsocks] h Hh.
  destruct Hws as [Hws | Hws]; [|congruence].
  rewrite Hws in Hh. destruct (Hinv _ Hh) as (sock & Hs & Ho).
  destruct (Hsocks _ _ Hs) as (sock' & Hs' & Ho').
  exists sock'. split; [done | lia].
Qed.

Lemma keeps_opened_same w w' :
  this w' = this w -> sockets w' = sockets w -> keeps_opened w w'.
Proof.
  intros Ht Hs. split; [left; by rewrite Ht|].
  intros h sock Hh. exists sock. by rewrite Hs.
Qed.

Lemma quiet_ret {A} (a : A) : quiet (ret a).
Proof. intros w. apply keeps_opened_refl. Qed.

Lemma quiet_throw {A} e : quiet (throw (A := A) e).
Proof. intros w. apply keeps_opened_refl. Qed.

Lemma quiet_gets {A} (f : World -> A) : quiet (gets f).
Proof. intros w. apply keeps_opened_refl. Qed.

Lemma quiet_bind {A B} (m : M A) (k : A -> M B) :
  quiet m -> (forall a, quiet (k a)) -> quiet (bind m k).
Proof.
  intros Hm Hk w. unfold bind. specialize (Hm w).
  destruct (m w) as [[a|e] w']; simpl in *; [|done].
  eapply keeps_opened_trans; [done | apply Hk].
Qed.

Lemma quiet_tell e : quiet (tell e).
Proof. intros w. by apply keeps_opened_same. Qed.

Lemma quiet_next_random : quiet next_random.
Proof. intros w. by apply keeps_opened_same. Qed.

Lemma quiet_log args : quiet (log args).
Proof. intros w. rewrite log_run. by apply keeps_opened_same. Qed.

Lemma quiet_dispatch name ev : quiet (dispatch name ev).
Proof. intros w. by apply keeps_opened_same. Qed.

Lemma quiet_clear_ws : quiet (set_this (set_ws None)).
Proof.
  intros w. split; [by right|]. intros h sock Hs. by exists sock.
Qed.

Create HintDb quiet.
#[local] Hint Resolve quiet_ret quiet_throw quiet_gets quiet_tell quiet_next_random
  quiet_log quiet_dispatch quiet_clear_ws : quiet.

(** Walks down a chain of binds, closing each link from the hint base and
    splitting on the branch that decides the next one. *)
Ltac quiet_chain :=
  repeat first
    [ progress auto with quiet
    | apply quiet_bind; [|intros ?]
    | match goal with
      | |- quiet (if ?b then _ else _) => destruct b
      | |- quiet (match ?x with _ => _ end) => destruct x
      end ].

Lemma quiet_disconnect ws_arg : quiet (disconnect ws_arg).
Proof. unfold disconnect. quiet_chain. Qed.

Lemma quiet_set_promise h sock outcome :
  forall w, sockets w !! h = Some sock ->
    keeps_opened w
      (set_socket h {| address := address sock;
                       connectionErrorHandler := connectionErrorHandler sock;
                       open_listeners := open_listeners sock;
                       promise := outcome |} w).2.
Proof.
  intros w Hs. split; [by left|]. intros h' sock' Hs'. simpl.
  destruct (decide (h = h')) as [<- | Hne].
  - rewrite lookup_insert_eq. eexists; split; [done|]. simpl. congruence.
  - rewrite lookup_insert_ne by done. by exists sock'.
Qed.

Lemma quiet_settle h outcome e : quiet (settle h outcome e).
Proof.
  intros w. unfold settle, bind, gets. simpl.
  destruct (sockets w !! h) as [sock|] eqn:Hs; [|apply keeps_opened_refl].
  destruct (promise sock); simpl; try apply keeps_opened_refl.
  eapply keeps_opened_trans; [by apply (quiet_set_promise h sock outcome)|].
  by apply keeps_opened_same.
Qed.

Lemma quiet_receive eventName event : quiet (receive eventName event).
Proof. unfold receive. quiet_chain. Qed.

#[local] Hint Resolve quiet_disconnect quiet_settle quiet_receive : quiet.

Lemma quiet_on_message raw : quiet (on_message raw).
Proof. unfold on_message. quiet_chain. Qed.

Lemma quiet_on_connection_error h : quiet (on_connection_error h).
Proof. unfold on_connection_error. quiet_chain. Qed.

Lemma quiet_on_error h : quiet (on_error h).
Proof. unfold on_error. quiet_chain. Qed.

Lemma quiet_on_close h : quiet (on_close h).
Proof. unfold on_close. quiet_chain. Qed.

Lemma quiet_repeat_M n m : quiet m -> quiet (repeat_M n m).
Proof.
  intros Hm. induction n as [|n IH]; simpl; [apply quiet_ret|].
  apply quiet_bind; [done|]. intros _. apply IH.
Qed.

Lemma quiet_send eventName data : quiet (send eventName data).
Proof. unfold send, isConnected. quiet_chain. Qed.

(** A new socket takes a handle no socket has, so the others stay. *)
Lemma quiet_new_socket sock :
  quiet (bind (gets (fun w => fresh (dom (sockets w))))
           (fun h => bind (tell (NewWebSocket h (address sock)))
                       (fun _ => bind (set_socket h sock) (fun _ => ret h)))).
Proof.
  intros w. unfold bind, gets. simpl. split; [by left|].
  intros h' sock' Hs'. simpl. exists sock'. split; [|done].
  rewrite lookup_insert_ne; [done|].
  intros Heq. pose proof (is_fresh (dom (sockets w))) as Hfresh.
  rewrite Heq in Hfresh. apply Hfresh. apply elem_of_dom. by exists sock'.
Qed.

Lemma quiet_connect g model : quiet (connect g model).
Proof.
  unfold connect, isConnected. apply quiet_bind; [auto with quiet|].
  intros connected. destruct connected; [auto with quiet|].
  apply quiet_bind; [auto with quiet|]. intros u.
  apply quiet_bind.
  { destruct (document g); [|auto with quiet].
    destruct (URL_new (default "undefined" u)); auto with quiet. }
  intros target.
  apply (quiet_new_socket
           {| address := target; connectionErrorHandler := true;
              open_listeners := 0; promise := Pending |}).
Qed.

#[local] Hint Resolve quiet_on_message quiet_on_connection_error quiet_on_error
  quiet_on_close quiet_repeat_M quiet_send quiet_connect : quiet.

(** After 'open' on a socket the object holds, the stored handle is that
    socket, and its 'open' listener has run. *)
Lemma emit_open_invariant h sock w :
  sockets w !! h = Some sock -> stored_socket_opened (emit h EvOpen w).2.
Proof.
  intros Hs h' Hh'. unfold emit, bind, gets in *. simpl in *.
  rewrite Hs in *. unfold on_open, bind, gets in *. rewrite log_run in *.
  simpl in *. rewrite Hs in *. simpl in *.
  unfold settle, bind, gets in *. simpl in *.
  rewrite lookup_insert_eq in *. simpl in *.
  destruct (promise sock); simpl in *; injection Hh' as <-;
    rewrite ?insert_insert_eq, lookup_insert_eq;
    eexists; (split; [done|]); simpl; lia.
Qed.

Lemma quiet_invariant {A} (m : M A) w :
  quiet m -> stored_socket_opened w -> stored_socket_opened (m w).2.
Proof. intros Hm Hinv. eapply keeps_opened_invariant; [done | apply Hm]. Qed.

Lemma step_invariant l w :
  stored_socket_opened w -> stored_socket_opened (step l w).
Proof.
  intros Hinv. destruct l as [g model| |eventName data|h ev]; simpl;
    try (apply quiet_invariant; [by auto with quiet | done]).
  destruct (sockets w !! h) as [sock|] eqn:Hs;
    [|unfold emit, bind, gets; simpl; by rewrite Hs].
  destruct ev as [| | |raw]; [by eapply emit_open_invariant|..];
    unfold emit, bind, gets; simpl; rewrite Hs.
  - apply (quiet_invariant
             (bind (if connectionErrorHandler sock
                    then on_connection_error h else ret tt)
                   (fun _ => repeat_M (open_listeners sock) (on_error h))));
      [|done].
    apply quiet_bind; [destruct (connectionErrorHandler sock)|intros _];
      auto with quiet.
  - apply quiet_invariant; [auto with quiet | done].
  - apply quiet_invariant; [auto with quiet | done].
Qed.

(** In every world a history leads to, the stored handle is a socket that
    has opened. *)
Lemma reachable_stored_socket_opened w :
  reachable w -> stored_socket_opened w.
Proof.
  induction 1 as [api seed Hws | l w Hr IH].
  - intros h Hh. simpl in Hh. congruence.
  - by apply step_invariant.
Qed.

(** C2 (defect in the code): in every world a history leads to, when the
    transport emits 'error' on a socket whose 'open' listener has not run
    and whose promise is pending, the promise is rejected with the
    connection error, and that is the only effect.  The teardown that
    [connectionErrorHandler] attempts through [disconnect(ws)] before the
    rejection misses: the guard of [disconnect] lets it act only on the
    stored handle, and a socket that has not opened is never the stored
    one, so the socket is not closed.  [this] is as before; in
    particular [isConnected()] is false at the rejection when it was
    false before. *)
Theorem connect_error_before_open
    (w : World) (h : handle) (sock : WebSocket) :
  reachable w ->
  sockets w !! h = Some sock ->
  connectionErrorHandler sock = true ->
  open_listeners sock = 0 ->
  promise sock = Pending ->
  let e := Error (msg_could_not_connect (url (this w))) in
  let after := (emit h EvError w).2 in
  (emit h EvError w).1 = Normal tt
  /\ effects_of (emit h EvError) w = [Reject h e]
  /\ (exists sock', sockets after !! h = Some sock' /\ promise sock' = Rejected e)
  /\ this after = this w
  /\ (ws (this w) = None -> (isConnected after).1 = Normal false).
Proof.
  intros Hr Hs Hc Ho Hp e after.
  assert (Hne : ws (this w) ≠ Some h).
  { intros Hh. destruct (reachable_stored_socket_opened _ Hr _ Hh) as (s' & Hs' & Ho').
    rewrite Hs in Hs'. injection Hs' as <-. lia. }
  pose proof (emit_error_pending _ _ _ Hs Hc Ho Hp Hne) as He. simpl in He.
  subst after. rewrite He. simpl.
  split; [done|]. split.
  { apply effects_of_spec. by rewrite He. }
  split.
  { eexists. rewrite lookup_insert_eq. split; [done|]. done. }
  split; [done|].
  intros Hidle. unfold isConnected, gets. simpl. by rewrite Hidle.
Qed.

End MethodFacts.

(** * Further properties of the code *)

(** ** The constructor, as a whole *)

Section ConstructorCoverage.
Context `{Host}.

Lemma truthy_str_false_cases o :
  truthy_str o = false -> o = None \/ o = Some "".
Proof.
  destruct o as [s|]; simpl; [|by left].
  destruct (String.eqb s "") eqn:E; [|done].
  apply String.eqb_eq in E. subst. by right.
Qed.

(** The outcome of the URL branch, case by case. *)
Lemma resolve_url_cases url_arg explicit this0 urlObj :
  truthy_str url_arg = true ->
  URL_new (default "" url_arg) = Some urlObj ->
  let embedded := URLSearchParams.get "api-key" (searchParams urlObj) in
  resolve_url url_arg explicit this0
  = if negb (truthy_str embedded) && negb (truthy_str explicit)
    then Throw (Error msg_key_required)
    else if truthy_str embedded && truthy_str explicit
            && negb (bool_decide (embedded = explicit))
    then Throw (Error msg_key_mismatch)
    else Normal
           (set_url
              (Some (URL_toString
                       (if truthy_str embedded then urlObj
                        else with_api_key
                               (default "" (or_str embedded explicit)) urlObj)))
              (set_apiKey (or_str embedded explicit) this0)).
Proof.
  intros Hurl Hparse embedded. unfold resolve_url. rewrite Hurl, Hparse.
  fold embedded.
  destruct (truthy_str embedded) eqn:Hemb, (truthy_str explicit) eqn:Hexp;
    simpl; try done.
  destruct (bool_decide (embedded = explicit)); done.
Qed.

(** X10: whatever the input, an object the constructor returns holds a
    non-empty credential, and its stored URL is the serialization of a
    URL whose [api-key] parameter is that credential; it is not
    connected, carries the given debug flag, and in a browser-like
    environment it exists only with the opt-in flag. *)
Theorem constructor_postcondition
    (g : globalThis) (url_arg explicit : option string) (flag dbg : bool)
    (api : RealtimeAPI) :
  constructor g url_arg explicit flag dbg = Normal api ->
  exists key stored,
    apiKey api = Some key /\ key ≠ ""
    /\ url api = Some (URL_toString stored)
    /\ URLSearchParams.get "api-key" (searchParams stored) = Some key
    /\ (truthy_str explicit = true -> explicit = Some key)
    /\ ws api = None
    /\ debug api = dbg
    /\ defaultUrl api = "wss://api.openai.com/v1/realtime"
    /\ (document g = true -> flag = true).
Proof.
  unfold constructor. intros Hc.
  destruct (truthy_str url_arg) eqn:Hurl;
    [|unfold resolve_url in Hc; rewrite Hurl in Hc; discriminate].
  destruct (URL_new (default "" url_arg)) as [urlObj|] eqn:Hparse;
    [|unfold resolve_url in Hc; rewrite Hurl, Hparse in Hc; discriminate].
  rewrite (resolve_url_cases _ _ _ _ Hurl Hparse) in Hc.
  set (embedded := URLSearchParams.get "api-key" (searchParams urlObj)) in *.
  destruct (truthy_str embedded) eqn:Hemb, (truthy_str explicit) eqn:Hexp;
    simpl in Hc; try discriminate.
  - destruct (truthy_str_true _ Hemb) as (X & HX & HXne).
    destruct (bool_decide (embedded = explicit)) eqn:Heq; simpl in Hc;
      [|discriminate].
    apply bool_decide_eq_true_1 in Heq.
    unfold browser_gate, or_str in Hc. rewrite Hemb in Hc. simpl in Hc.
    rewrite Hemb in Hc.
    destruct (document g) eqn:Hdoc, flag eqn:Hflag; simpl in Hc;
      try discriminate; injection Hc as <-; simpl;
      exists X, urlObj; rewrite <- Heq; repeat split; try done.
  - destruct (truthy_str_true _ Hemb) as (X & HX & HXne).
    unfold browser_gate, or_str in Hc. rewrite Hemb in Hc. simpl in Hc.
    rewrite Hemb in Hc.
    destruct (document g) eqn:Hdoc, flag eqn:Hflag; simpl in Hc;
      try discriminate; injection Hc as <-; simpl;
      exists X, urlObj; repeat split; try done.
  - destruct (truthy_str_true _ Hexp) as (Y & -> & HYne).
    unfold browser_gate, or_str in Hc. rewrite Hemb in Hc. simpl in Hc, Hexp.
    rewrite Hexp in Hc.
    destruct (document g) eqn:Hdoc, flag eqn:Hflag; simpl in Hc;
      try discriminate; injection Hc as <-; simpl;
      exists Y, (with_api_key Y urlObj);
      (repeat split; try done); apply with_api_key_get.
Qed.

(** X11: the constructor returns an object exactly when a URL is given
    and parses, at least one of the embedded and the explicit credential
    is present, the two are equal when both are, and the environment has
    no [document] global or the opt-in flag is set. *)
Theorem constructor_succeeds_iff
    (g : globalThis) (url_arg explicit : option string) (flag dbg : bool) :
  (exists api, constructor g url_arg explicit flag dbg = Normal api)
  <-> constructible g url_arg explicit flag.
Proof.
  unfold constructible, constructor. split.
  - intros [api Hc].
    destruct (truthy_str url_arg) eqn:Hurl;
      [|unfold resolve_url in Hc; rewrite Hurl in Hc; discriminate].
    destruct (URL_new (default "" url_arg)) as [urlObj|] eqn:Hparse;
      [|unfold resolve_url in Hc; rewrite Hurl, Hparse in Hc; discriminate].
    rewrite (resolve_url_cases _ _ _ _ Hurl Hparse) in Hc.
    split; [done|].
    set (embedded := URLSearchParams.get "api-key" (searchParams urlObj)) in *.
    destruct (truthy_str embedded) eqn:Hemb, (truthy_str explicit) eqn:Hexp;
      simpl in Hc; try discriminate.
    + destruct (bool_decide (embedded = explicit)) eqn:Heq; simpl in Hc;
        [|discriminate].
      apply bool_decide_eq_true_1 in Heq.
      split.
      { exists urlObj. split; [done|]. fold embedded. rewrite ?Hemb, ?Hexp.
        simpl. split; [done | intros ?; by auto]. }
      unfold browser_gate in Hc.
      destruct (document g); [|by left]. destruct flag; [by right|].
      simpl in Hc. unfold or_str in Hc. rewrite Hemb in Hc. simpl in Hc.
      rewrite Hemb in Hc. discriminate.
    + split.
      { exists urlObj. split; [done|]. fold embedded. rewrite ?Hemb, ?Hexp.
        simpl. split; [done | intros ?; by auto]. }
      unfold browser_gate in Hc.
      destruct (document g); [|by left]. destruct flag; [by right|].
      simpl in Hc. unfold or_str in Hc. rewrite Hemb in Hc. simpl in Hc.
      rewrite Hemb in Hc. discriminate.
    + split.
      { exists urlObj. split; [done|]. fold embedded. rewrite ?Hemb, ?Hexp.
        simpl. split; [done | intros ?; by auto]. }
      unfold browser_gate in Hc.
      destruct (document g); [|by left]. destruct flag; [by right|].
      simpl in Hc. unfold or_str in Hc. rewrite Hemb in Hc. simpl in Hc.
      rewrite Hexp in Hc. discriminate.
  - intros (Hurl & (urlObj & Hparse & Hpresent & Hagree) & Hgate).
    rewrite (resolve_url_cases _ _ _ _ Hurl Hparse).
    set (embedded := URLSearchParams.get "api-key" (searchParams urlObj)) in *.
    destruct (truthy_str embedded) eqn:Hemb, (truthy_str explicit) eqn:Hexp;
      simpl in *; try discriminate.
    + rewrite bool_decide_eq_true_2 by auto. simpl.
      rewrite browser_gate_pass by done. by eexists.
    + rewrite browser_gate_pass by done. by eexists.
    + rewrite browser_gate_pass by done. by eexists.
Qed.

(** X12: an explicit credential that is the empty string is no
    credential: the constructor treats it as it treats a missing one. *)
Theorem constructor_empty_key_is_absent
    (g : globalThis) (url_arg : option string) (flag dbg : bool) :
  constructor g url_arg (Some "") flag dbg = constructor g url_arg None flag dbg.
Proof.
  unfold constructor.
  destruct (truthy_str url_arg) eqn:Hurl;
    [|unfold resolve_url; by rewrite Hurl].
  destruct (URL_new (default "" url_arg)) as [urlObj|] eqn:Hparse;
    [|unfold resolve_url; by rewrite Hurl, Hparse].
  rewrite !(resolve_url_cases _ _ _ _ Hurl Hparse).
  destruct (truthy_str (URLSearchParams.get "api-key" (searchParams urlObj)))
    eqn:Hemb; simpl; [|done].
  unfold or_str. by rewrite Hemb.
Qed.

End ConstructorCoverage.

(** ** connect, the listeners and disconnect *)

Section MethodCoverage.
Context `{Host} `{IdGen}.

Lemma fresh_socket_unused (w : World) : sockets w !! fresh (dom (sockets w)) = None.
Proof. apply not_elem_of_dom. apply is_fresh. Qed.

(** X1: [connect] on a connected object throws the already-connected
    error (the promise it returns is rejected at once) and does nothing
    else: no socket is created and the connection is kept. *)
Theorem connect_while_connected
    (g : globalThis) (model : option string) (w : World) (h : handle) :
  ws (this w) = Some h ->
  connect g model w = (Throw (Error msg_already_connected), w).
Proof.
  intros Hws. unfold connect, isConnected, bind, gets. simpl. by rewrite Hws.
Qed.

Lemma connect_node_run g model w :
  document g = false ->
  ws (this w) = None ->
  connect g model w
  = (Normal (fresh (dom (sockets w))),
     after_connect w (fresh (dom (sockets w))) (node_target (this w))).
Proof.
  intros Hdoc Hws. unfold connect, isConnected, bind, gets. simpl.
  by rewrite Hws, Hdoc.
Qed.

(** X2: under Node.js, [connect] on an idle object creates exactly one
    socket, for the stored URL (for the default endpoint with the default
    model when no URL is stored), whatever the [model] setting is; the
    socket is new, its promise is pending, and the object itself is
    unchanged, so it is not connected yet. *)
Theorem connect_under_node
    (g : globalThis) (model : option string) (w : World) :
  document g = false ->
  ws (this w) = None ->
  let h := fresh (dom (sockets w)) in
  connect g model w = (Normal h, after_connect w h (node_target (this w)))
  /\ sockets w !! h = None
  /\ (isConnected (after_connect w h (node_target (this w)))).1 = Normal false.
Proof.
  intros Hdoc Hws h. split; [|split].
  - by apply connect_node_run.
  - apply fresh_socket_unused.
  - unfold isConnected, gets. simpl. by rewrite Hws.
Qed.

(** X3: in a browser, [connect] on an idle object parses the stored URL;
    if that fails it throws and creates nothing; otherwise it creates one
    socket whose address is the stored URL as it is when the URL names a
    [model] or a [deployment], when its host is an Azure OpenAI host, or
    when no model is given, and the stored URL with [model] appended to
    the query in every other case. *)
Theorem connect_in_browser
    (g : globalThis) (model : option string) (w : World) :
  document g = true ->
  ws (this w) = None ->
  let stored := default "undefined" (url (this w)) in
  (URL_new stored = None ->
     connect g model w = (Throw (TypeError "Invalid URL"), w))
  /\ (forall urlObj, URL_new stored = Some urlObj ->
        let h := fresh (dom (sockets w)) in
        connect g model w
        = (Normal h, after_connect w h (browser_target urlObj model))
        /\ sockets w !! h = None).
Proof.
  intros Hdoc Hws stored. split.
  - intros Hp. unfold stored in Hp.
    unfold connect, isConnected, bind, gets. simpl.
    rewrite Hws, Hdoc. simpl. by rewrite Hp.
  - intros urlObj Hp h. unfold stored in Hp. split; [|apply fresh_socket_unused].
    unfold connect, isConnected, bind, gets. simpl.
    rewrite Hws, Hdoc. simpl. rewrite Hp. simpl.
    unfold after_connect, browser_target, new_socket. fold h.
    destruct (URLSearchParams.has "model" (searchParams urlObj)),
      (URLSearchParams.has "deployment" (searchParams urlObj)),
      (includes (hostname urlObj) "openai.azure.com"),
      (truthy_str model); done.
Qed.

(** X4: 'open' on a socket whose promise is pending resolves the promise,
    stores the socket as the connection, so that [isConnected()] is true,
    takes [connectionErrorHandler] off the socket and counts the run of
    the listener; besides the log line, resolving is the only effect. *)
Theorem open_settles_connect
    (w : World) (h : handle) (sock : WebSocket) :
  sockets w !! h = Some sock ->
  promise sock = Pending ->
  emit h EvOpen w = (Normal tt, after_open w h sock)
  /\ (isConnected (after_open w h sock)).1 = Normal true.
Proof.
  intros Hs Hp. split; [|done].
  unfold emit, bind, gets. simpl. rewrite Hs.
  unfold on_open, bind, gets. rewrite log_run. simpl. rewrite Hs. simpl.
  unfold settle, bind, gets. simpl. rewrite lookup_insert_eq. simpl.
  rewrite Hp. simpl. unfold after_open, log_effects. simpl.
  unfold tell, modify. simpl. rewrite insert_insert_eq.
  do 2 f_equal. by rewrite <- app_assoc.
Qed.

(** [disconnect(ws)] with the stored socket. *)
Lemma disconnect_stored_socket h w :
  ws (this w) = Some h ->
  disconnect (Some h) w
  = (Normal (VBool true),
     {| this := set_ws None (this w); sockets := sockets w;
        random := random w; trace := trace w ++ [WsClose h] |}).
Proof.
  intros Hws. unfold disconnect, bind, gets. simpl. rewrite Hws.
  rewrite bool_decide_eq_true_2 by done. done.
Qed.

(** X13: [disconnect(ws)] acts only on the stored socket: given the stored
    handle it closes the socket, clears the handle and returns true;
    given any other socket it returns [undefined] and changes nothing. *)
Theorem disconnect_given_socket (w : World) (h : handle) :
  (ws (this w) = Some h ->
     disconnect (Some h) w
     = (Normal (VBool true),
        {| this := set_ws None (this w); sockets := sockets w;
           random := random w; trace := trace w ++ [WsClose h] |}))
  /\ (ws (this w) ≠ Some h ->
      disconnect (Some h) w = (Normal VUndefined, w)).
Proof.
  split; [apply disconnect_stored_socket | apply disconnect_other_socket].
Qed.

(** One run of a post-open listener: [disconnect(ws)], the log line, the
    local [close] event. *)
Lemma on_error_run h w : on_error h w = (Normal tt, after_closing w h true).
Proof.
  unfold on_error, bind. unfold after_closing.
  destruct (decide (ws (this w) = Some h)) as [Hst|Hst].
  - rewrite (disconnect_stored_socket _ _ Hst). simpl.
    unfold gets. simpl. rewrite log_run. simpl.
    rewrite bool_decide_eq_true_2 by done.
    unfold log_effects, closing_line, close_notice. simpl.
    do 2 f_equal. rewrite <- !app_assoc. done.
  - rewrite (disconnect_other_socket _ _ Hst). simpl.
    unfold gets. simpl. rewrite log_run. simpl.
    rewrite bool_decide_eq_false_2 by done.
    unfold log_effects, closing_line, close_notice. simpl.
    destruct w as [t ss r tr]. simpl. do 2 f_equal. by rewrite <- !app_assoc.
Qed.

Lemma on_close_run h w : on_close h w = (Normal tt, after_closing w h false).
Proof.
  unfold on_close, bind. unfold after_closing.
  destruct (decide (ws (this w) = Some h)) as [Hst|Hst].
  - rewrite (disconnect_stored_socket _ _ Hst). simpl.
    unfold gets. simpl. rewrite log_run. simpl.
    rewrite bool_decide_eq_true_2 by done.
    unfold log_effects, closing_line, close_notice. simpl.
    do 2 f_equal. rewrite <- !app_assoc. done.
  - rewrite (disconnect_other_socket _ _ Hst). simpl.
    unfold gets. simpl. rewrite log_run. simpl.
    rewrite bool_decide_eq_false_2 by done.
    unfold log_effects, closing_line, close_notice. simpl.
    destruct w as [t ss r tr]. simpl. do 2 f_equal. by rewrite <- !app_assoc.
Qed.

(** X5: a transport 'error' on a socket that has opened once dispatches
    the local [close] event with [error: true]; if the socket is the
    stored connection it is closed and the handle cleared first, and if
    it is not (a socket of an earlier connection), the current connection
    is left alone, yet the event is dispatched all the same.  The promise
    of the socket is not touched. *)
Theorem error_after_open
    (w : World) (h : handle) (sock : WebSocket) :
  sockets w !! h = Some sock ->
  connectionErrorHandler sock = false ->
  open_listeners sock = 1 ->
  emit h EvError w = (Normal tt, after_closing w h true)
  /\ ws (this (after_closing w h true))
     = (if bool_decide (ws (this w) = Some h) then None else ws (this w))
  /\ sockets (after_closing w h true) = sockets w.
Proof.
  intros Hs Hc Ho. split.
  - unfold emit, bind, gets. simpl. rewrite Hs, Hc, Ho. simpl.
    unfold bind. by rewrite on_error_run.
  - unfold after_closing. simpl. split; [|done].
    by destruct (bool_decide (ws (this w) = Some h)).
Qed.

Lemma emit_close_opened_once w h sock :
  sockets w !! h = Some sock ->
  open_listeners sock = 1 ->
  emit h EvClose w = (Normal tt, after_closing w h false).
Proof.
  intros Hs Ho. unfold emit, bind, gets. simpl. rewrite Hs, Ho. simpl.
  unfold bind. by rewrite on_close_run.
Qed.

(** X6: a transport 'close' on a socket that has opened once dispatches
    the local [close] event with [error: false]; the stored connection is
    closed and cleared first when the socket is the stored one, and left
    alone when it is not. *)
Theorem close_after_open
    (w : World) (h : handle) (sock : WebSocket) :
  sockets w !! h = Some sock ->
  open_listeners sock = 1 ->
  emit h EvClose w = (Normal tt, after_closing w h false)
  /\ ws (this (after_closing w h false))
     = (if bool_decide (ws (this w) = Some h) then None else ws (this w))
  /\ sockets (after_closing w h false) = sockets w.
Proof.
  intros Hs Ho. split; [by eapply emit_close_opened_once|].
  unfold after_closing. simpl. split; [|done].
  by destruct (bool_decide (ws (this w) = Some h)).
Qed.


(** X8: [send] returns true exactly when the object is connected and the
    payload is falsy or has type [object]; when it throws instead, the
    world is exactly as before the call. *)
Theorem send_succeeds_iff
    (w : World) (eventName : string) (data : value) :
  ((send eventName data w).1 = Normal true
   <-> is_Some (ws (this w)) /\ typeof (or_empty data) = "object")
  /\ (forall e w', send eventName data w = (Throw e, w') -> w' = w).
Proof.
  destruct (ws (this w)) as [h|] eqn:Hws.
  - destruct (decide (typeof (or_empty data) = "object")) as [Hobj|Hobj].
    + rewrite (send_connected _ _ _ _ Hws Hobj). simpl.
      split; [|discriminate]. split; [by eauto | done].
    + assert (Hs : send eventName data w = (Throw (Error msg_data_object), w)).
      { unfold send, isConnected, bind, gets. simpl. rewrite Hws. simpl.
        fold (or_empty data). by rewrite bool_decide_eq_false_2. }
      rewrite Hs. simpl. split.
      * split; [discriminate | by intros [_ ?]].
      * by intros e w' [= _ <-].
  - assert (Hs : send eventName data w = (Throw (Error msg_not_connected), w)).
    { unfold send, isConnected, bind, gets. simpl. by rewrite Hws. }
    rewrite Hs. simpl. split.
    + split; [discriminate | by intros [[? ?] _]].
    + by intros e w' [= _ <-].
Qed.

(** X9: every falsy payload ([undefined], [null], [false], 0, the empty
    string) is treated as no payload: the call behaves as [send(type)],
    and the event it builds has exactly the two stamped fields. *)
Theorem send_falsy_payload
    (w : World) (eventName : string) (data : value) :
  truthy data = false ->
  send eventName data w = send eventName VUndefined w
  /\ outgoing_event eventName data (random w)
     = VObject [("event_id", VString (generateId "evt_" (random w)));
                ("type", VString eventName)].
Proof.
  intros Ht. split.
  - unfold send. simpl. by rewrite Ht.
  - unfold outgoing_event, or_empty. by rewrite Ht.
Qed.

(** X14: the object is reusable: after [disconnect()], whatever the world
    was, [connect] under Node.js does not throw and returns a socket that
    no earlier connection used; when the call returns, the object is
    still idle. *)
Theorem reconnect_after_disconnect
    (g : globalThis) (model : option string) (w : World) :
  document g = false ->
  let idle_again := (disconnect None w).2 in
  exists h,
    (connect g model idle_again).1 = Normal h
    /\ sockets w !! h = None
    /\ ws (this (connect g model idle_again).2) = None.
Proof.
  intros Hdoc idle_again.
  assert (Hidle : ws (this idle_again) = None).
  { unfold idle_again, disconnect, bind, gets. simpl. by destruct (ws (this w)). }
  assert (Hsocks : sockets idle_again = sockets w).
  { unfold idle_again, disconnect, bind, gets. simpl. by destruct (ws (this w)). }
  exists (fresh (dom (sockets idle_again))).
  rewrite (connect_node_run g model idle_again Hdoc Hidle). simpl.
  split; [done|]. split; [|done].
  rewrite <- Hsocks. apply fresh_socket_unused.
Qed.

(** X15: [disconnect()] on a connection whose socket has opened once,
    followed by the 'close' the transport then emits for that socket:
    the socket is closed once, by [disconnect], and the local [close]
    event is dispatched once, with [error: false], by the listener; the
    object ends idle. *)
Theorem disconnect_then_close_event
    (w : World) (h : handle) (sock : WebSocket) :
  ws (this w) = Some h ->
  sockets w !! h = Some sock ->
  open_listeners sock = 1 ->
  let w1 := (disconnect None w).2 in
  let w2 := (emit h EvClose w1).2 in
  trace w2
  = (trace w ++ [WsClose h]
     ++ log_effects w [closing_line false (url (this w))]
     ++ [Dispatch "close" (close_notice false)])%list
  /\ ws (this w2) = None
  /\ sockets w2 = sockets w.
Proof.
  intros Hws Hs Ho w1 w2.
  assert (Hw1 : w1 = {| this := set_ws None (this w); sockets := sockets w;
                        random := random w; trace := trace w ++ [WsClose h] |}).
  { unfold w1, disconnect, bind, gets. simpl. by rewrite Hws. }
  assert (Hs1 : sockets w1 !! h = Some sock) by (by rewrite Hw1).
  unfold w2. rewrite (emit_close_opened_once w1 h sock Hs1 Ho).
  rewrite Hw1. unfold after_closing, log_effects. simpl.
  split; [by rewrite <- app_assoc|]. done.
Qed.

(** X20: under Node.js, [connect] on an idle object followed by the
    transport's 'open' on the new socket leaves the object connected to
    that socket with the promise resolved; the socket is created, the
    line is logged and the promise resolved, in this order, and nothing
    is written to or closed on the transport. *)
Theorem connect_then_open
    (g : globalThis) (model : option string) (w : World) :
  document g = false ->
  ws (this w) = None ->
  let h := fresh (dom (sockets w)) in
  let target := node_target (this w) in
  let w2 := (emit h EvOpen (connect g model w).2).2 in
  this w2 = set_ws (Some h) (this w)
  /\ (isConnected w2).1 = Normal true
  /\ sockets w2 !! h
     = Some {| address := target; connectionErrorHandler := false;
               open_listeners := 1; promise := Fulfilled |}
  /\ trace w2
     = (trace w ++ [NewWebSocket h target]
        ++ log_effects w
             [VString ("Connected to " +:+ dq
                       +:+ default "undefined" (url (this w)) +:+ dq)]
        ++ [Resolve h])%list.
Proof.
  intros Hdoc Hws h target w2.
  assert (Hw2 : w2 = after_open (after_connect w h target) h (new_socket target)).
  { unfold w2. rewrite (connect_node_run g model w Hdoc Hws). simpl.
    fold h. fold target.
    assert (Hs : sockets (after_connect w h target) !! h = Some (new_socket target))
      by (simpl; apply lookup_insert_eq).
    unfold emit, bind, gets. simpl. rewrite lookup_insert_eq.
    unfold on_open, bind, gets. rewrite log_run. simpl.
    rewrite lookup_insert_eq. simpl.
    unfold settle, bind, gets. simpl. rewrite lookup_insert_eq. simpl.
    unfold after_open, after_connect, log_effects. simpl.
    rewrite insert_insert_eq. f_equal. by rewrite <- !app_assoc. }
  rewrite Hw2. unfold after_open, after_connect, log_effects. simpl.
  split; [done|]. split; [done|].
  split; [by rewrite lookup_insert_eq|].
  by rewrite <- !app_assoc.
Qed.

End MethodCoverage.

(** ** What no history does *)

Section HistoryCoverage.
Context `{Host} `{IdGen}.

Lemma same_config_refl a : same_config a a.
Proof. by repeat split. Qed.

Lemma same_config_trans a b c :
  same_config a b -> same_config b c -> same_config a c.
Proof.
  intros (? & ? & ? & ?) (? & ? & ? & ?). repeat split; congruence.
Qed.

Lemma same_config_set_ws o a : same_config a (set_ws o a).
Proof. by repeat split. Qed.

Lemma disciplined_refl w : disciplined w w.
Proof.
  split; [|by left]. split; [apply same_config_refl|].
  exists []. split; [by rewrite app_nil_r | constructor].
Qed.

(** Effects permitted later were permitted before, as long as the handle
    was only kept or cleared in between. *)
Lemma permitted_earlier a b e :
  same_config a b -> (ws b = ws a \/ ws b = None) ->
  permitted b e -> permitted a e.
Proof.
  intros (_ & _ & Hd & _) Hws. destruct e; simpl; try done.
  - intros Hb. destruct Hws as [<- | Hn]; [done | congruence].
  - intros Hb. destruct Hws as [<- | Hn]; [done | congruence].
  - congruence.
Qed.

Lemma disciplined_trans w1 w2 w3 :
  disciplined w1 w2 -> disciplined w2 w3 -> disciplined w1 w3.
Proof.
  intros [[Hc1 (l1 & Ht1 & Hp1)] Hws1] [[Hc2 (l2 & Ht2 & Hp2)] Hws2].
  split; [split|].
  - by eapply same_config_trans.
  - exists (l1 ++ l2)%list. split; [by rewrite Ht2, Ht1, app_assoc|].
    apply Forall_app. split; [done|].
    eapply Forall_impl; [exact Hp2|]. intros e He.
    by eapply permitted_earlier.
  - destruct Hws2 as [-> | ->]; [done | by right].
Qed.

Lemma tidy_ret {A} (a : A) : tidy (ret a).
Proof. intros w. apply disciplined_refl. Qed.

Lemma tidy_throw {A} e : tidy (throw (A := A) e).
Proof. intros w. apply disciplined_refl. Qed.

Lemma tidy_gets {A} (f : World -> A) : tidy (gets f).
Proof. intros w. apply disciplined_refl. Qed.

Lemma tidy_bind {A B} (m : M A) (k : A -> M B) :
  tidy m -> (forall a, tidy (k a)) -> tidy (bind m k).
Proof.
  intros Hm Hk w. unfold bind. specialize (Hm w).
  destruct (m w) as [[a|e] w']; simpl in *; [|done].
  eapply disciplined_trans; [done | apply Hk].
Qed.

(** A world that differs in its trace only, by permitted effects. *)
Lemma disciplined_effects w l :
  Forall (permitted (this w)) l -> disciplined w (with_effects w l).
Proof.
  intros Hl. split; [|by left]. split; [apply same_config_refl|].
  by exists l.
Qed.

Lemma tidy_tell e : (forall api, permitted api e) -> tidy (tell e).
Proof.
  intros He w. apply (disciplined_effects w [e]). by repeat constructor.
Qed.

Lemma tidy_set_socket h sock : tidy (set_socket h sock).
Proof.
  intros w. split; [|by left]. split; [apply same_config_refl|].
  exists []. split; [simpl; by rewrite app_nil_r | constructor].
Qed.

Lemma tidy_next_random : tidy next_random.
Proof.
  intros w. split; [|by left]. split; [apply same_config_refl|].
  exists []. split; [simpl; by rewrite app_nil_r | constructor].
Qed.

Lemma log_effects_permitted w args : Forall (permitted (this w)) (log_effects w args).
Proof.
  unfold log_effects. destruct (debug (this w)) eqn:Hd; by repeat constructor.
Qed.

Lemma tidy_log args : tidy (log args).
Proof.
  intros w. rewrite log_run. apply disciplined_effects, log_effects_permitted.
Qed.

Lemma tidy_dispatch name ev : tidy (dispatch name ev).
Proof.
  unfold dispatch. apply tidy_bind; [by apply tidy_tell|]. intros _. apply tidy_ret.
Qed.

Lemma tidy_disconnect ws_arg : tidy (disconnect ws_arg).
Proof.
  intros w. unfold disconnect, bind, gets. simpl.
  destruct (bool_decide (ws_arg = None) || bool_decide (ws (this w) = ws_arg));
    [|apply disciplined_refl].
  destruct (ws (this w)) as [h|] eqn:Hws; simpl.
  - split; [|by right]. split; [apply same_config_set_ws|].
    exists [WsClose h]. split; [done|]. by repeat constructor.
  - split; [|by right]. split; [apply same_config_set_ws|].
    exists []. split; [simpl; by rewrite app_nil_r | constructor].
Qed.

Lemma tidy_settle h outcome e :
  (forall api, permitted api e) -> tidy (settle h outcome e).
Proof.
  intros He. unfold settle. apply tidy_bind; [apply tidy_gets|]. intros [sock|];
    [|apply tidy_ret].
  destruct (promise sock); try apply tidy_ret.
  apply tidy_bind; [apply tidy_set_socket|]. intros _. by apply tidy_tell.
Qed.

Create HintDb tidy.
#[local] Hint Resolve tidy_ret tidy_throw tidy_gets tidy_set_socket
  tidy_next_random tidy_log tidy_dispatch tidy_disconnect : tidy.

Lemma tidy_receive eventName event : tidy (receive eventName event).
Proof.
  unfold receive. repeat (apply tidy_bind; [auto with tidy | intros _]).
  auto with tidy.
Qed.

Lemma tidy_on_message raw : tidy (on_message raw).
Proof.
  unfold on_message. destruct (JSON_parse raw) as [message|]; [|auto with tidy].
  destruct (get_member message "type"); [|auto with tidy].
  apply tidy_bind; [apply tidy_receive | intros _; auto with tidy].
Qed.

Lemma tidy_on_connection_error h : tidy (on_connection_error h).
Proof.
  unfold on_connection_error.
  apply tidy_bind; [auto with tidy | intros _].
  apply tidy_bind; [auto with tidy | intros u].
  by apply tidy_settle.
Qed.

Lemma tidy_on_error h : tidy (on_error h).
Proof.
  unfold on_error. repeat (apply tidy_bind; [auto with tidy | intros ?]).
  auto with tidy.
Qed.

Lemma tidy_on_close h : tidy (on_close h).
Proof.
  unfold on_close. repeat (apply tidy_bind; [auto with tidy | intros ?]).
  auto with tidy.
Qed.

Lemma tidy_repeat_M n m : tidy m -> tidy (repeat_M n m).
Proof.
  intros Hm. induction n as [|n IH]; simpl; [apply tidy_ret|].
  apply tidy_bind; [done | intros _; apply IH].
Qed.

Lemma tidy_send eventName data : tidy (send eventName data).
Proof.
  intros w. destruct (ws (this w)) as [h|] eqn:Hws.
  - destruct (decide (typeof (or_empty data) = "object")) as [Hobj|Hobj].
    + rewrite (send_connected _ _ _ _ Hws Hobj). simpl.
      split; [|by left]. split; [apply same_config_refl|].
      eexists. split; [reflexivity|].
      repeat (apply Forall_cons; split; [done|]).
      apply Forall_app. split; [apply log_effects_permitted|].
      by repeat constructor.
    + assert (Hs : send eventName data w = (Throw (Error msg_data_object), w)).
      { unfold send, isConnected, bind, gets. simpl. rewrite Hws. simpl.
        fold (or_empty data). by rewrite bool_decide_eq_false_2. }
      rewrite Hs. apply disciplined_refl.
  - assert (Hs : send eventName data w = (Throw (Error msg_not_connected), w)).
    { unfold send, isConnected, bind, gets. simpl. by rewrite Hws. }
    rewrite Hs. apply disciplined_refl.
Qed.

Lemma tidy_connect g model : tidy (connect g model).
Proof.
  unfold connect, isConnected. apply tidy_bind; [auto with tidy|].
  intros connected. destruct connected; [auto with tidy|].
  apply tidy_bind; [auto with tidy|]. intros u.
  apply tidy_bind.
  { destruct (document g); [|auto with tidy].
    destruct (URL_new (default "undefined" u)); auto with tidy. }
  intros target. apply tidy_bind; [auto with tidy|]. intros h.
  apply tidy_bind; [by apply tidy_tell|]. intros _.
  apply tidy_bind; [auto with tidy|]. intros _. auto with tidy.
Qed.

(** 'open' stores the socket; it performs no call on a socket. *)
Lemma emit_open_orderly h sock w :
  sockets w !! h = Some sock -> orderly w (emit h EvOpen w).2.
Proof.
  intros Hs. unfold emit, bind, gets. simpl. rewrite Hs.
  unfold on_open, bind, gets. rewrite log_run. simpl. rewrite Hs. simpl.
  unfold settle, bind, gets. simpl. rewrite lookup_insert_eq. simpl.
  destruct (promise sock); simpl.
  - split; [apply same_config_set_ws|].
    exists (log_effects w
              [VString ("Connected to " +:+ dq
                        +:+ default "undefined" (url (this w)) +:+ dq)]
            ++ [Resolve h])%list.
    split; [by rewrite app_assoc|].
    apply Forall_app. split; [apply log_effects_permitted | by repeat constructor].
  - split; [apply same_config_set_ws|].
    eexists. split; [reflexivity | apply log_effects_permitted].
  - split; [apply same_config_set_ws|].
    eexists. split; [reflexivity | apply log_effects_permitted].
Qed.

Lemma step_orderly l w : orderly w (step l w).
Proof.
  destruct l as [g model| |eventName data|h ev]; simpl.
  - apply tidy_connect.
  - apply tidy_disconnect.
  - apply tidy_send.
  - destruct (sockets w !! h) as [sock|] eqn:Hs.
    + destruct ev as [| | |raw]; [by eapply emit_open_orderly|..];
        unfold emit, bind, gets; simpl; rewrite Hs.
      * apply (tidy_bind
                 (if connectionErrorHandler sock
                  then on_connection_error h else ret tt)
                 (fun _ => repeat_M (open_listeners sock) (on_error h))).
        { destruct (connectionErrorHandler sock);
            [apply tidy_on_connection_error | apply tidy_ret]. }
        intros _. apply tidy_repeat_M, tidy_on_error.
      * apply tidy_repeat_M, tidy_on_close.
      * apply tidy_on_message.
    + unfold emit, bind, gets. simpl. rewrite Hs. apply disciplined_refl.
Qed.

(** X16: in one step (a call, or a transport event with the listeners it
    runs), every wire write and every close goes to the socket that was
    the stored connection when the step began, and console lines are
    written only in debug mode. *)
Theorem step_transport_discipline (l : step_label) (w : World) :
  Forall (permitted (this w)) (step_effects l w).
Proof.
  destruct (step_orderly l w) as [_ (effs & Ht & Hp)].
  unfold step_effects. rewrite Ht. by rewrite drop_app_length.
Qed.

Lemma run_cons l ls w : run (l :: ls) w = run ls (step l w).
Proof. reflexivity. Qed.

(** X17: no history changes what the constructor set: [url], [apiKey],
    [debug] and [defaultUrl] of the object are the same after any
    sequence of calls and transport events. *)
Theorem history_keeps_config (ls : list step_label) (w : World) :
  same_config (this w) (this (run ls w)).
Proof.
  revert w. induction ls as [|l ls IH]; intros w; [apply same_config_refl|].
  rewrite run_cons. eapply same_config_trans; [|apply IH].
  apply step_orderly.
Qed.

(** X18: with debug mode off the console stays silent: a history only
    appends to the trace, and nothing it appends is a console line. *)
Theorem history_silent_without_debug (ls : list step_label) (w : World) :
  debug (this w) = false ->
  exists l : list effect,
    trace (run ls w) = (trace w ++ l)%list
    /\ Forall (fun e => is_console_log e = false) l.
Proof.
  revert w. induction ls as [|l ls IH]; intros w Hd.
  - exists []. split; [simpl; by rewrite app_nil_r | constructor].
  - rewrite run_cons.
    destruct (step_orderly l w) as [Hc (l1 & Ht1 & Hp1)].
    assert (Hd' : debug (this (step l w)) = false).
    { destruct Hc as (_ & _ & <- & _). done. }
    destruct (IH _ Hd') as (l2 & Ht2 & Hp2).
    exists (l1 ++ l2)%list. split; [by rewrite Ht2, Ht1, app_assoc|].
    apply Forall_app. split; [|done].
    eapply Forall_impl; [exact Hp1|]. intros e He.
    destruct e; simpl in *; try done. congruence.
Qed.

Lemma reachable_run ls w : reachable w -> reachable (run ls w).
Proof.
  revert w. induction ls as [|l ls IH]; intros w Hr; [done|].
  rewrite run_cons. apply IH. by apply reachable_step.
Qed.

(** X19: the object never holds a connection before the transport has
    opened it: after any history from a new object, a stored handle is a
    socket that [connect] created and whose 'open' listener has run. *)
Theorem connected_socket_has_opened
    (api : RealtimeAPI) (seed : nat) (ls : list step_label) (h : handle) :
  ws api = None ->
  ws (this (run ls (new_world api seed))) = Some h ->
  exists sock,
    sockets (run ls (new_world api seed)) !! h = Some sock
    /\ 0 < open_listeners sock.
Proof.
  intros Hnew Hh.
  apply (reachable_stored_socket_opened (run ls (new_world api seed))); [|done].
  apply reachable_run. by apply reachable_new.
Qed.

(** X21: a further 'error' on a socket that has not opened and whose
    promise is already settled changes nothing: the handler runs, its
    [disconnect(ws)] is a no-op and the promise cannot be rejected twice. *)
Theorem repeated_error_is_ignored
    (w : World) (h : handle) (sock : WebSocket) :
  reachable w ->
  sockets w !! h = Some sock ->
  connectionErrorHandler sock = true ->
  open_listeners sock = 0 ->
  promise sock ≠ Pending ->
  emit h EvError w = (Normal tt, w).
Proof.
  intros Hr Hs Hc Ho Hp.
  assert (Hne : ws (this w) ≠ Some h).
  { intros Hh.
    destruct (reachable_stored_socket_opened _ Hr _ Hh) as (s' & Hs' & Ho').
    rewrite Hs in Hs'. injection Hs' as <-. lia. }
  unfold emit, bind, gets. simpl. rewrite Hs, Hc, Ho. simpl.
  unfold on_connection_error, bind.
  rewrite (disconnect_other_socket _ _ Hne). simpl.
  unfold settle, bind, gets. simpl. rewrite Hs.
  by destruct (promise sock).
Qed.

End HistoryCoverage.

(** * Closed examples on the reference host *)

Import RefHost Scenario.

(** The scenario's worlds are worlds of a history. *)
Lemma reachable_connecting : reachable connecting.
Proof.
  apply (reachable_step (CallConnect node (Some default_model))).
  apply reachable_new. reflexivity.
Defined.

Lemma reachable_connected : reachable connected.
Proof. apply (reachable_step (Emit 0 EvOpen)). exact reachable_connecting. Defined.

(** ** The constructor *)

(** C1, as stated, fails here: in a browser-like environment without the
    opt-in flag, a URL that embeds api-key=k together with the equal
    explicit credential k does not construct; the browser gate throws. *)
Lemma constructor_matching_key_in_browser :
  URL_new endpoint_with_key = Some endpoint_url
  /\ URLSearchParams.get "api-key" (searchParams endpoint_url) = Some "k"
  /\ constructor browser (Some endpoint_with_key) (Some "k") false false
     = Throw (Error msg_browser_key).
Proof. vm_compute. repeat split. Qed.

(** C1 at the scenario's endpoint, with the key embedded and with the key
    given apart. *)
Lemma constructor_resolves_credential_witness :
  constructor node (Some endpoint_with_key) (Some "k") false false
  = Normal (constructed "k" endpoint_url false)
  /\ constructor node (Some endpoint) (Some "k") false false
     = Normal (constructed "k" (with_api_key "k" (mkURL endpoint "h.example" [] "")) false).
Proof.
  split.
  - refine (proj1 (proj2 (constructor_resolves_credential
                            node endpoint_with_key (Some "k") false false
                            endpoint_url _ _)) "k" _ _ _ _).
    + discriminate.
    + vm_compute. reflexivity.
    + vm_compute. reflexivity.
    + discriminate.
    + left. reflexivity.
    + left. reflexivity.
  - refine (proj1 (proj2 (proj2 (proj2 (constructor_resolves_credential
                            node endpoint (Some "k") false false
                            (mkURL endpoint "h.example" [] "") _ _))) "k" _ _ _ _)).
    + discriminate.
    + vm_compute. reflexivity.
    + vm_compute. reflexivity.
    + reflexivity.
    + discriminate.
    + left. reflexivity.
Defined.

(** The stored URL, as text: an embedded credential stays where it was,
    an explicit one is added to the query. *)
Lemma constructor_stored_url_examples :
  constructor node (Some endpoint_with_key) None false false
  = Normal (mkAPI "wss://api.openai.com/v1/realtime" (Some "k") false None
              (Some endpoint_with_key))
  /\ constructor node (Some endpoint) (Some "k") false false
     = Normal (mkAPI "wss://api.openai.com/v1/realtime" (Some "k") false None
                 (Some endpoint_with_key))
  /\ includes endpoint_with_key "api-key=k" = true.
Proof. vm_compute. repeat split. Qed.

(** C9, as stated, fails here: in a browser-like environment with the
    opt-in flag set and an explicit credential present, construction does
    not succeed when the URL embeds a different credential. *)
Lemma constructor_mismatch_with_opt_in :
  constructor browser (Some endpoint_with_key) (Some "other") true false
  = Throw (Error msg_key_mismatch).
Proof. vm_compute. reflexivity. Qed.

(** C9 at the scenario's endpoint in a browser, with and without the
    opt-in flag. *)
Lemma constructor_browser_gate_witness :
  (exists api,
     constructor browser (Some endpoint_with_key) (Some "k") true false = Normal api
     /\ apiKey api = Some "k"
     /\ truthy_str (apiKey api) = true)
  /\ constructor browser (Some endpoint_with_key) (Some "k") false false
     = Throw (Error msg_browser_key).
Proof.
  split.
  - refine (constructor_browser_gate browser endpoint_with_key (Some "k") true false
              endpoint_url _ _ _ _ _).
    + reflexivity.
    + discriminate.
    + vm_compute. reflexivity.
    + vm_compute. reflexivity.
    + intros _. vm_compute. reflexivity.
  - refine (constructor_browser_gate browser endpoint_with_key (Some "k") false false
              endpoint_url _ _ _ _ _).
    + reflexivity.
    + discriminate.
    + vm_compute. reflexivity.
    + vm_compute. reflexivity.
    + intros _. vm_compute. reflexivity.
Defined.

(** ** connect and the transport *)

(** C2 at its failing input: [connect()] creates socket 0, the transport
    emits 'error' before 'open', and the promise is rejected without any
    close of the socket before (or after) the rejection. *)
Lemma connect_error_issues_no_close :
  connect node (Some default_model) idle = (Normal 0, connecting)
  /\ trace (emit 0 EvError connecting).2
     = [NewWebSocket 0 endpoint_with_key; Reject 0 connect_failure]
  /\ existsb is_ws_close (trace (emit 0 EvError connecting).2) = false.
Proof. vm_compute. repeat split. Qed.

(** C2 at the scenario's pending connection. *)
Lemma connect_error_before_open_witness :
  (emit 0 EvError connecting).1 = Normal tt
  /\ effects_of (emit 0 EvError) connecting = [Reject 0 connect_failure]
  /\ (exists sock', sockets (emit 0 EvError connecting).2 !! 0 = Some sock'
                    /\ promise sock' = Rejected connect_failure)
  /\ this (emit 0 EvError connecting).2 = this connecting
  /\ (ws (this connecting) = None ->
      (isConnected (emit 0 EvError connecting).2).1 = Normal false).
Proof.
  refine (connect_error_before_open connecting 0 pending_socket
            reachable_connecting _ _ _ _).
  - vm_compute. reflexivity.
  - reflexivity.
  - reflexivity.
  - reflexivity.
Defined.

(** C3, as stated, fails here: on the connected object, the inbound text
    [{not json] is not reported on any event channel; the 'message'
    listener throws the parse error and the world is left as it was, with
    nothing dispatched. *)
Lemma malformed_message_reports_nothing :
  JSON_parse "{not json" = None
  /\ emit 0 (EvMessage "{not json") connected
     = (Throw (SyntaxError "JSON.parse"), connected)
  /\ existsb is_dispatch (effects_of (emit 0 (EvMessage "{not json")) connected)
     = false.
Proof. vm_compute. repeat split. Qed.

(** C3 at the scenario's connection, for text that does not parse and
    for an object without a type. *)
Lemma inbound_malformed_message_witness :
  (emit 0 (EvMessage "{not json") connected
   = (Throw (SyntaxError "JSON.parse"), connected)
   /\ effects_of (emit 0 (EvMessage "{not json")) connected = [])
  /\ ((emit 0 (EvMessage untyped_text) connected).1 = Normal tt
      /\ effects_of (emit 0 (EvMessage untyped_text)) connected
         = [Dispatch "server.undefined" foo_payload;
            Dispatch "server.*" foo_payload]
      /\ this (emit 0 (EvMessage untyped_text) connected).2 = this connected).
Proof.
  split.
  - refine (proj1 (inbound_malformed_message connected 0 open_socket
                     "{not json" _) _).
    + vm_compute. reflexivity.
    + vm_compute. reflexivity.
  - refine (proj2 (proj2 (inbound_malformed_message connected 0 open_socket
                            untyped_text _)) foo_payload _ _).
    + vm_compute. reflexivity.
    + vm_compute. reflexivity.
    + reflexivity.
Defined.

(** ** send *)

(** C4, as stated, fails here: [send] on the connected object dispatches
    under [client.response.create] and [client.*] first and writes to the
    wire last; the wire write does not come before the dispatch. *)
Lemma send_dispatches_first_example :
  effects_of (send "response.create" foo_payload) connected
  = [Dispatch "client.response.create" foo_event;
     Dispatch "client.*" foo_event;
     WsSend 0 (JSON_stringify foo_event)]
  /\ ~ before (WsSend 0 (JSON_stringify foo_event))
         (Dispatch "client.response.create" foo_event)
         (effects_of (send "response.create" foo_payload) connected).
Proof.
  assert (He : effects_of (send "response.create" foo_payload) connected
               = [Dispatch "client.response.create" foo_event;
                  Dispatch "client.*" foo_event;
                  WsSend 0 (JSON_stringify foo_event)])
    by (vm_compute; reflexivity).
  split; [exact He|]. rewrite He.
  intros (l1 & l2 & l3 & Heq).
  destruct l1 as [|a [|b [|c l1]]]; simpl in Heq;
    try discriminate Heq.
  - injection Heq as _ _ Heq. destruct l2; discriminate Heq.
  - injection Heq as _ _ _ Heq. destruct l1; discriminate Heq.
Qed.

(** C4 at the scenario's connection. *)
Lemma send_dispatches_before_wire_write_witness :
  exists logged,
    effects_of (send "response.create" foo_payload) connected
    = ([Dispatch ("client." +:+ "response.create")
          (outgoing_event "response.create" foo_payload (random connected));
        Dispatch "client.*"
          (outgoing_event "response.create" foo_payload (random connected))]
       ++ logged
       ++ [WsSend 0 (JSON_stringify
                       (outgoing_event "response.create" foo_payload
                          (random connected)))])%list.
Proof.
  destruct (send_dispatches_before_wire_write connected 0 "response.create"
              foo_payload eq_refl eq_refl) as (logged & He & _).
  exists logged. exact He.
Defined.

(** C5, as stated, fails here: the payload brings its own [type] and an
    empty [event_id]; the dispatched event carries those, not the given
    type and not a generated, non-empty id. *)
Lemma send_payload_wins_example :
  (send "response.create" stamped_payload connected).1 = Normal true
  /\ effects_of (send "response.create" stamped_payload) connected
     = [Dispatch "client.response.create" stamped_payload;
        Dispatch "client.*" stamped_payload;
        WsSend 0 (JSON_stringify stamped_payload)]
  /\ prop_of stamped_payload "type" = Some (VString "other")
  /\ prop_of stamped_payload "event_id" = Some (VString "").
Proof. vm_compute. repeat split. Qed.

(** C5 at the scenario's connection, for the payload with foo: 1. *)
Lemma send_event_contents_witness :
  send "response.create" foo_payload connected
  = (Normal true, after_send connected 0 "response.create" foo_payload)
  /\ prop_of (outgoing_event "response.create" foo_payload (random connected)) "foo"
     = Some (VNumber 1)
  /\ prop_of (outgoing_event "response.create" foo_payload (random connected)) "type"
     = Some (VString "response.create")
  /\ prop_of (outgoing_event "response.create" foo_payload (random connected))
       "event_id"
     = Some (VString (generateId "evt_" (random connected))).
Proof.
  destruct (send_event_contents connected 0 "response.create" foo_payload
              eq_refl eq_refl)
    as (Hs & _ & _ & Hall & Htype & Hid & _).
  - vm_compute. apply NoDup_cons. split; [apply not_elem_of_nil | apply NoDup_nil_2].
  - split; [exact Hs|]. split; [apply Hall; reflexivity|].
    split; [apply Htype; reflexivity | apply Hid; reflexivity].
Defined.

(** C6, as stated, fails here: an array is present as the payload and is
    not a key/value mapping, yet [send] on the connected object raises
    nothing: it returns true and writes to the wire. *)
Lemma send_accepts_array_example :
  (send "response.create" (VArray [VNumber 1]) connected).1 = Normal true
  /\ existsb is_wire_write
       (effects_of (send "response.create" (VArray [VNumber 1])) connected)
     = true.
Proof. vm_compute. repeat split. Qed.

(** C6 on the idle object, and on the connected one with the payload 5. *)
Lemma send_rejects_witness :
  (send "response.create" foo_payload idle = (Throw (Error msg_not_connected), idle)
   /\ effects_of (send "response.create" foo_payload) idle = [])
  /\ (send "response.create" (VNumber 5) connected
      = (Throw (Error msg_data_object), connected)
      /\ effects_of (send "response.create" (VNumber 5)) connected = []).
Proof.
  split.
  - refine (proj1 (send_rejects idle "response.create" foo_payload) _).
    reflexivity.
  - refine (proj2 (send_rejects connected "response.create" (VNumber 5)) 0 _ _ _).
    + reflexivity.
    + reflexivity.
    + discriminate.
Defined.

(** C10 at the scenario's connection, for a payload with both keys. *)
Lemma send_payload_overrides_stamps_witness :
  prop_of (outgoing_event "response.create" stamped_payload (random connected))
    "event_id" = Some (VString "")
  /\ prop_of (outgoing_event "response.create" stamped_payload (random connected))
       "type" = Some (VString "other").
Proof.
  destruct (send_payload_overrides_stamps connected 0 "response.create"
              [("event_id", VString ""); ("type", VString "other")] eq_refl)
    as (_ & _ & Hid & Htype).
  - refine (bool_decide_unpack (NoDup ["event_id"; "type"]) _).
    vm_compute. exact I.
  - split; [apply Hid | apply Htype]; reflexivity.
Defined.

(** ** disconnect *)

(** After two [disconnect()] calls on the connected object, the one
    'close' the transport emits for the closed socket is dispatched once. *)
Lemma disconnect_twice_one_close_event :
  trace (emit 0 EvClose (disconnect None (disconnect None connected).2).2).2
  = [NewWebSocket 0 endpoint_with_key; Resolve 0; WsClose 0;
     Dispatch "close" (VObject [("error", VBool false)])].
Proof. vm_compute. reflexivity. Qed.

(** ** Further properties, at the scenario *)

(** X1 on the connected object. *)
Lemma connect_while_connected_witness :
  connect node (Some default_model) connected
  = (Throw (Error msg_already_connected), connected).
Proof.
  refine (connect_while_connected node (Some default_model) connected 0 _).
  reflexivity.
Defined.

(** X2 on the idle object: socket 0 for the stored URL. *)
Lemma connect_under_node_witness :
  connect node (Some default_model) idle
  = (Normal (fresh (dom (sockets idle))),
     after_connect idle (fresh (dom (sockets idle))) (node_target (this idle)))
  /\ sockets idle !! fresh (dom (sockets idle)) = None
  /\ (isConnected
        (after_connect idle (fresh (dom (sockets idle)))
           (node_target (this idle)))).1 = Normal false.
Proof.
  refine (connect_under_node node (Some default_model) idle _ _).
  - reflexivity.
  - reflexivity.
Defined.

(** X3 on the idle object in a browser: the model is appended. *)
Lemma connect_in_browser_witness :
  connect browser (Some default_model) idle
  = (Normal (fresh (dom (sockets idle))),
     after_connect idle (fresh (dom (sockets idle)))
       (browser_target endpoint_url (Some default_model)))
  /\ browser_target endpoint_url (Some default_model) = browser_address.
Proof.
  split.
  - refine (proj1 (proj2 (connect_in_browser browser (Some default_model) idle _ _)
                     endpoint_url _)).
    + reflexivity.
    + reflexivity.
    + vm_compute. reflexivity.
  - vm_compute. reflexivity.
Defined.

(** X4 on the pending connection. *)
Lemma open_settles_connect_witness :
  emit 0 EvOpen connecting = (Normal tt, after_open connecting 0 pending_socket)
  /\ (isConnected (after_open connecting 0 pending_socket)).1 = Normal true.
Proof.
  refine (open_settles_connect connecting 0 pending_socket _ _).
  - vm_compute. reflexivity.
  - reflexivity.
Defined.

(** X5 on the connected object. *)
Lemma error_after_open_witness :
  emit 0 EvError connected = (Normal tt, after_closing connected 0 true)
  /\ ws (this (after_closing connected 0 true))
     = (if bool_decide (ws (this connected) = Some 0)
        then None else ws (this connected))
  /\ sockets (after_closing connected 0 true) = sockets connected.
Proof.
  refine (error_after_open connected 0 open_socket _ _ _).
  - vm_compute. reflexivity.
  - reflexivity.
  - reflexivity.
Defined.

(** X6 on the connected object. *)
Lemma close_after_open_witness :
  emit 0 EvClose connected = (Normal tt, after_closing connected 0 false)
  /\ ws (this (after_closing connected 0 false))
     = (if bool_decide (ws (this connected) = Some 0)
        then None else ws (this connected))
  /\ sockets (after_closing connected 0 false) = sockets connected.
Proof.
  refine (close_after_open connected 0 open_socket _ _).
  - vm_compute. reflexivity.
  - reflexivity.
Defined.


(** X9 on the connected object, for the payload 0. *)
Lemma send_falsy_payload_witness :
  send "response.create" (VNumber 0) connected
  = send "response.create" VUndefined connected
  /\ outgoing_event "response.create" (VNumber 0) (random connected)
     = VObject [("event_id", VString (generateId "evt_" (random connected)));
                ("type", VString "response.create")].
Proof.
  refine (send_falsy_payload connected "response.create" (VNumber 0) _).
  reflexivity.
Defined.

(** X10 for the object built from [endpoint_with_key]. *)
Lemma constructor_postcondition_witness :
  exists key stored,
    apiKey (constructed "k" endpoint_url false) = Some key /\ key ≠ ""
    /\ url (constructed "k" endpoint_url false) = Some (URL_toString stored)
    /\ URLSearchParams.get "api-key" (searchParams stored) = Some key
    /\ (truthy_str (Some "k") = true -> Some "k" = Some key)
    /\ ws (constructed "k" endpoint_url false) = None
    /\ debug (constructed "k" endpoint_url false) = false
    /\ defaultUrl (constructed "k" endpoint_url false)
       = "wss://api.openai.com/v1/realtime"
    /\ (document node = true -> false = true).
Proof.
  refine (constructor_postcondition node (Some endpoint_with_key) (Some "k")
            false false (constructed "k" endpoint_url false) _).
  vm_compute. reflexivity.
Defined.

(** X14 from the connected object. *)
Lemma reconnect_after_disconnect_witness :
  exists h,
    (connect node (Some default_model) (disconnect None connected).2).1 = Normal h
    /\ sockets connected !! h = None
    /\ ws (this (connect node (Some default_model)
                   (disconnect None connected).2).2) = None.
Proof.
  refine (reconnect_after_disconnect node (Some default_model) connected _).
  reflexivity.
Defined.

(** X15 on the connected object. *)
Lemma disconnect_then_close_event_witness :
  trace (emit 0 EvClose (disconnect None connected).2).2
  = (trace connected ++ [WsClose 0]
     ++ log_effects connected [closing_line false (url (this connected))]
     ++ [Dispatch "close" (close_notice false)])%list
  /\ ws (this (emit 0 EvClose (disconnect None connected).2).2) = None
  /\ sockets (emit 0 EvClose (disconnect None connected).2).2 = sockets connected.
Proof.
  refine (disconnect_then_close_event connected 0 open_socket _ _ _).
  - reflexivity.
  - vm_compute. reflexivity.
  - reflexivity.
Defined.

(** X18 for the session from the idle object, whose debug flag is off. *)
Lemma history_silent_without_debug_witness :
  exists l : list effect,
    trace (run session idle) = (trace idle ++ l)%list
    /\ Forall (fun e => is_console_log e = false) l.
Proof.
  refine (history_silent_without_debug session idle _).
  reflexivity.
Defined.

(** X19 after connect and open from the new object. *)
Lemma connected_socket_has_opened_witness :
  exists sock,
    sockets (run [CallConnect node (Some default_model); Emit 0 EvOpen]
               (new_world (constructed "k" endpoint_url false) 0)) !! 0
    = Some sock
    /\ 0 < open_listeners sock.
Proof.
  refine (connected_socket_has_opened (constructed "k" endpoint_url false) 0
            [CallConnect node (Some default_model); Emit 0 EvOpen] 0 _ _).
  - reflexivity.
  - vm_compute. reflexivity.
Defined.

(** X20 from the idle object. *)
Lemma connect_then_open_witness :
  this (emit (fresh (dom (sockets idle))) EvOpen
          (connect node (Some default_model) idle).2).2
  = set_ws (Some (fresh (dom (sockets idle)))) (this idle)
  /\ (isConnected
        (emit (fresh (dom (sockets idle))) EvOpen
           (connect node (Some default_model) idle).2).2).1 = Normal true.
Proof.
  destruct (connect_then_open node (Some default_model) idle eq_refl eq_refl)
    as (Hthis & Hconn & _).
  split; [exact Hthis | exact Hconn].
Defined.

(** X21 on the pending connection after a first 'error'. *)
Lemma repeated_error_is_ignored_witness :
  emit 0 EvError (step (Emit 0 EvError) connecting)
  = (Normal tt, step (Emit 0 EvError) connecting).
Proof.
  refine (repeated_error_is_ignored (step (Emit 0 EvError) connecting) 0
            failed_socket _ _ _ _ _).
  - apply (reachable_step (Emit 0 EvError)). exact reachable_connecting.
  - vm_compute. reflexivity.
  - reflexivity.
  - reflexivity.
  - discriminate.
Defined.
